(** * Reverse-and-add chains and the Lychrel graph

    A shallow embedding of [lychrel_graph.py] (arithmetic primitives and the
    per-seed step counter) and [lychrel_tree.py] (string primitives, the
    chain generator and the graph builder), followed by the properties of
    the specification that concern them.

    Python integers are unbounded, so values are [Z].  Dictionaries and
    sets are stdpp's [gmap] and [gset]: two of them are equal exactly when
    they hold the same entries, which is Python's [==] on dicts and sets
    (insertion order is not observable through it).  Exceptions are the
    [Raise] branch of a small error monad.  [str] and [int] carry the
    interpreter's limit on decimal conversions: with the default setting
    they raise [ValueError] on more than 4300 digits. *)

From Stdlib Require Import ZArith QArith Ascii Lia Lqa.
From stdpp Require Import base decidable option list list_numbers gmap strings
  pretty sorting.

Local Open Scope Z_scope.

(** ** Python prelude: exceptions, [str], [int], [range], [enumerate] *)

Module Py.

Inductive exn : Set := ValueError | IndexError.

Inductive result (A : Type) : Type :=
| Ok (a : A)
| Raise (e : exn).
Arguments Ok {A} a.
Arguments Raise {A} e.

Definition bind {A B} (m : result A) (k : A -> result B) : result B :=
  match m with
  | Ok a => k a
  | Raise e => Raise e
  end.

(** A [for] loop whose body may raise: the first exception ends it. *)
Fixpoint for_each {S A} (body : S -> A -> result S) (s : S) (xs : list A)
  : result S :=
  match xs with
  | [] => Ok s
  | x :: xs' => bind (body s x) (fun s' => for_each body s' xs')
  end.

(** Enough iterations for a loop that divides a number by ten until it
    is no longer positive: dividing by ten loses at least one bit. *)
Definition digit_fuel (n : Z) : nat := S (Z.to_nat (Z.log2 n)).

Definition digit_char (d : Z) : ascii := ascii_of_nat (48 + Z.to_nat d).

Definition digit_val (c : ascii) : option Z :=
  let k := Z.of_nat (nat_of_ascii c) in
  if (48 <=? k) && (k <=? 57) then Some (k - 48) else None.

(** The decimal digits of a positive number, most significant first,
    accumulated in front of [acc]. *)
Fixpoint str_loop (fuel : nat) (n : Z) (acc : list ascii) : list ascii :=
  match fuel with
  | O => acc
  | S fuel' =>
      if 0 <? n
      then str_loop fuel' (n / 10) (digit_char (n mod 10) :: acc)
      else acc
  end.

Definition str_abs (n : Z) : list ascii :=
  if n =? 0 then ["0"%char] else str_loop (digit_fuel n) n [].

(** [sys.int_info.default_max_str_digits]: the most digits that [str]
    produces and [int] accepts. *)
Definition max_str_digits : nat := 4300.

(** The least number with more than [max_str_digits] digits. *)
Definition str_limit : Z := 10 ^ 4300.

(** [str(n)] for an [int]: a minus sign for negatives, no leading zero,
    and a [ValueError] when there are more than [max_str_digits] digits. *)
Definition str (n : Z) : result (list ascii) :=
  let s := str_abs (Z.abs n) in
  if (max_str_digits <? length s)%nat then Raise ValueError
  else Ok (if n <? 0 then "-"%char :: s else s).

Fixpoint int_digits (acc : Z) (s : list ascii) : option Z :=
  match s with
  | [] => Some acc
  | c :: s' =>
      match digit_val c with
      | Some d => int_digits (acc * 10 + d) s'
      | None => None
      end
  end.

Definition int_unsigned (s : list ascii) : result Z :=
  match s with
  | [] => Raise ValueError
  | _ =>
      if (max_str_digits <? length s)%nat then Raise ValueError
      else match int_digits 0 s with
           | Some v => Ok v
           | None => Raise ValueError
           end
  end.

(** [int(s)] on the alphabet of [str]: an optional sign, then one or more
    digits (leading zeros allowed), at most [max_str_digits] of them;
    anything else is a [ValueError].  White space and underscores, which
    [int] also tolerates, never occur in a reversed [str(n)]. *)
Definition int (s : list ascii) : result Z :=
  match s with
  | "-"%char :: s' => bind (int_unsigned s') (fun v => Ok (- v))
  | "+"%char :: s' => int_unsigned s'
  | _ => int_unsigned s
  end.

(** [range(a, b)] *)
Definition range (a b : Z) : list Z := seqZ a (b - a).

(** [enumerate(l)] *)
Definition enumerate {A} (l : list A) : list (nat * A) := imap pair l.

(** [l[i]] for [0 <= i]: an [IndexError] past the end. *)
Definition index {A} (l : list A) (i : nat) : result A :=
  match l !! i with
  | Some x => Ok x
  | None => Raise IndexError
  end.

End Py.

Import Py.

(** [x ← m; k] runs [m] and, unless it raised, continues with [k]. *)
Global Instance result_ret : MRet result := fun A a => Ok a.
Global Instance result_bind : MBind result := fun A B k m => Py.bind m k.

(** ** lychrel_graph.py *)

Module lychrel_graph.

(** The [while num > 0] loop of [reverse_int]; it returns the final
    [(num, rev)], so that leaving the loop by its condition can be told
    from running out of fuel. *)
Fixpoint reverse_int_loop (fuel : nat) (num rev : Z) : Z * Z :=
  match fuel with
  | O => (num, rev)
  | S fuel' =>
      if 0 <? num
      then reverse_int_loop fuel' (num / 10) (rev * 10 + num mod 10)
      else (num, rev)
  end.

Definition reverse_int (num : Z) : Z :=
  snd (reverse_int_loop (digit_fuel num) num 0).

Definition is_palindrome (num : Z) : bool :=
  if num <? 0 then false
  else
    let original := num in
    let rev := snd (reverse_int_loop (digit_fuel num) num 0) in
    rev =? original.

(** The [for i in range(1, max_iter + 1)] loop: [Some i] is the
    [return i] inside the loop, [None] is the loop running to its end. *)
Fixpoint palindrome_iterations_loop (steps : list Z) (current : Z)
  : option Z :=
  match steps with
  | [] => None
  | i :: steps' =>
      let current := current + reverse_int current in
      if is_palindrome current then Some i
      else palindrome_iterations_loop steps' current
  end.

Definition palindrome_iterations (n max_iter : Z) : Z :=
  match palindrome_iterations_loop (range 1 (max_iter + 1)) n with
  | Some i => i
  | None => max_iter
  end.

Record series : Type := Series {
  x_vals : list Z;
  y_vals : list Z;
  no_palindrome_nums : list Z
}.

Definition series_step (max_iter : Z) (s : series) (n : Z) : series :=
  let iters_needed := palindrome_iterations n max_iter in
  Series (x_vals s ++ [n]) (y_vals s ++ [iters_needed])
         (if iters_needed =? max_iter
          then no_palindrome_nums s ++ [n]
          else no_palindrome_nums s).

(** The data computed by [lychrel_graph_save] (step 1); plotting and
    printing only read it. *)
Definition lychrel_graph_save (start end_ max_iter : Z) : series :=
  foldl (series_step max_iter) (Series [] [] []) (range start (end_ + 1)).

(** The differences printed in step 5. *)
Definition differences (l : list Z) : list Z :=
  (fun i => l !!! S i - l !!! i) <$> seq 0 (length l - 1).

End lychrel_graph.

(** ** lychrel_tree.py *)

Module lychrel_tree.

Definition is_palindrome (n : Z) : result bool :=
  s1 ← str n;
  s2 ← str n;
  Ok (bool_decide (s1 = reverse s2)).

Definition reverse_num (n : Z) : result Z :=
  s ← str n;
  int (reverse s).

(** The [for _ in range(max_iter)] loop of [lychrel_chain]. *)
Fixpoint lychrel_chain_loop (steps : list Z) (chain : list Z) (current : Z)
  : result (list Z * bool) :=
  match steps with
  | [] => Ok (chain, false)
  | _ :: steps' =>
      r ← reverse_num current;
      let next_val := current + r in
      let chain := chain ++ [next_val] in
      found ← is_palindrome next_val;
      if (found : bool) then Ok (chain, true)
      else lychrel_chain_loop steps' chain next_val
  end.

Definition lychrel_chain (n max_iter : Z) : result (list Z * bool) :=
  lychrel_chain_loop (range 0 max_iter) [n] n.

Record graph : Type := Graph {
  adjacency : gmap Z (gset Z);
  level_of : gmap Z nat;
  lychrel_seeds : gset Z
}.

(** [add_edge(u, v)] *)
Definition add_edge (u v : Z) (adjacency : gmap Z (gset Z))
  : gmap Z (gset Z) :=
  let adjacency :=
    match adjacency !! u with
    | None => <[u := ∅]> adjacency
    | Some _ => adjacency
    end in
  alter (fun s => s ∪ {[v]}) u adjacency.

(** The two-branch update of [level_of] (lines 59-62 and 69-72). *)
Definition set_level (node : Z) (i : nat) (level_of : gmap Z nat)
  : gmap Z nat :=
  match level_of !! node with
  | None => <[node := i]> level_of
  | Some l => <[node := Nat.min l i]> level_of
  end.

(** The body of [for i, node in enumerate(chain)]. *)
Definition visit (chain : list Z) (st : gmap Z (gset Z) * gmap Z nat)
    (e : nat * Z) : result (gmap Z (gset Z) * gmap Z nat) :=
  let '(adjacency, level_of) := st in
  let '(i, node) := e in
  let level_of := set_level node i level_of in
  if bool_decide (Z.of_nat i < Z.of_nat (length chain) - 1) then
    nxt ← index chain (i + 1);
    Ok (add_edge node nxt adjacency, set_level nxt (i + 1) level_of)
  else Ok (adjacency, level_of).

(** The body of [for n in range(start, end + 1)]. *)
Definition add_seed (max_iter : Z) (g : graph) (n : Z) : result graph :=
  '(chain, found_pal) ← lychrel_chain n max_iter;
  let lychrel_seeds :=
    if negb found_pal then lychrel_seeds g ∪ {[n]} else lychrel_seeds g in
  '(adjacency, level_of) ←
    for_each (visit chain) (adjacency g, level_of g) (enumerate chain);
  Ok (Graph adjacency level_of lychrel_seeds).

Definition build_lychrel_graph (start end_ max_iter : Z) : result graph :=
  for_each (add_seed max_iter) (Graph ∅ ∅ ∅) (range start (end_ + 1)).

End lychrel_tree.

(** ** Digit lists, used to state what the loops compute *)

Module Digits.

(** The digits the division loops visit, least significant first. *)
Fixpoint digits_loop (fuel : nat) (n : Z) : list Z :=
  match fuel with
  | O => []
  | S fuel' => if 0 <? n then n mod 10 :: digits_loop fuel' (n / 10) else []
  end.

Definition digits (n : Z) : list Z := digits_loop (digit_fuel n) n.

(** The decimal text of a number, whatever its length. *)
Definition decimal (n : Z) : list ascii :=
  if n <? 0 then "-"%char :: str_abs (- n) else str_abs n.

(** The decimal text reads the same in both directions. *)
Definition reads_same (n : Z) : bool :=
  bool_decide (decimal n = reverse (decimal n)).

(** The number whose digits, least significant first, are [l]. *)
Definition value_le (l : list Z) : Z := foldr (fun d r => d + 10 * r) 0 l.

Definition is_digit (d : Z) : Prop := 0 <= d < 10.

(** No leading zero: the most significant digit, if any, is not [0]. *)
Definition normal (l : list Z) : Prop := last l <> Some 0.

End Digits.

Import Digits.

(** ** Chains and graphs, stated without loops *)

Module Model.

(** One reverse-and-add step. *)
Definition step (x : Z) : Z := x + lychrel_graph.reverse_int x.

(** The values a chain appends after [current] in at most [k] steps, and
    whether the last of them is a palindrome that ended the chain. *)
Fixpoint extend (k : nat) (current : Z) : list Z * bool :=
  match k with
  | O => ([], false)
  | S k' =>
      let next_val := step current in
      if lychrel_graph.is_palindrome next_val then ([next_val], true)
      else (next_val :: (extend k' next_val).1, (extend k' next_val).2)
  end.

Definition chain_of (n max_iter : Z) : list Z :=
  n :: (extend (Z.to_nat max_iter) n).1.

Definition found_of (n max_iter : Z) : bool :=
  (extend (Z.to_nat max_iter) n).2.

(** Pointwise minimum of two level maps. *)
Definition level_merge (m1 m2 : gmap Z nat) : gmap Z nat :=
  union_with (fun a b => Some (Nat.min a b)) m1 m2.

(** Union of two edge sets, source by source. *)
Definition adj_merge (m1 m2 : gmap Z (gset Z)) : gmap Z (gset Z) :=
  union_with (fun a b => Some (a ∪ b)) m1 m2.

(** The reduction of the specification: edge-set union, pointwise level
    minimum, and union of the flagged seeds. *)
Definition merge (g1 g2 : lychrel_tree.graph) : lychrel_tree.graph :=
  lychrel_tree.Graph
    (adj_merge (lychrel_tree.adjacency g1) (lychrel_tree.adjacency g2))
    (level_merge (lychrel_tree.level_of g1) (lychrel_tree.level_of g2))
    (lychrel_tree.lychrel_seeds g1 ∪ lychrel_tree.lychrel_seeds g2).

Definition empty_graph : lychrel_tree.graph := lychrel_tree.Graph ∅ ∅ ∅.

(** Merging partial results that were computed independently; a part
    that raised makes the whole raise. *)
Definition merge_results (r1 r2 : result lychrel_tree.graph)
  : result lychrel_tree.graph :=
  g1 ← r1; g2 ← r2; Ok (merge g1 g2).

Definition merge_all (rs : list (result lychrel_tree.graph))
  : result lychrel_tree.graph :=
  foldr merge_results (Ok empty_graph) rs.

(** [build_lychrel_graph] with its seeds taken in any given order. *)
Definition build_over (max_iter : Z) (seeds : list Z)
  : result lychrel_tree.graph :=
  for_each (lychrel_tree.add_seed max_iter) empty_graph seeds.

(** The levels a chain contributes when its first node has index [i]. *)
Fixpoint chain_levels (i : nat) (c : list Z) : gmap Z nat :=
  match c with
  | [] => ∅
  | node :: rest => level_merge {[node := i]} (chain_levels (S i) rest)
  end.

(** The edges a chain contributes. *)
Fixpoint chain_edges (c : list Z) : gmap Z (gset Z) :=
  match c with
  | [] => ∅
  | node :: rest =>
      match rest with
      | [] => ∅
      | nxt :: _ => adj_merge {[node := {[nxt]}]} (chain_edges rest)
      end
  end.

(** What one seed contributes to the graph. *)
Definition seed_graph (n : Z) (c : list Z) (found_pal : bool)
  : lychrel_tree.graph :=
  lychrel_tree.Graph (chain_edges c) (chain_levels 0 c)
                     (if found_pal then ∅ else {[n]}).

(** [u -> v] is an edge of an adjacency map. *)
Definition has_edge (adj : gmap Z (gset Z)) (u v : Z) : Prop :=
  exists s, adj !! u = Some s /\ v ∈ s.

(** [o] is the least number satisfying [P], or nothing satisfies [P]. *)
Definition is_min (P : nat -> Prop) (o : option nat) : Prop :=
  match o with
  | Some l => P l /\ forall j, P j -> (l <= j)%nat
  | None => forall j, ~ P j
  end.

(** [c] is the chain generated for a seed of [[start, end_]], with its
    status. *)
Definition generated (start end_ max_iter : Z) (c : list Z)
    (found_pal : bool) : Prop :=
  exists seed, start <= seed <= end_ /\
    lychrel_tree.lychrel_chain seed max_iter = Ok (c, found_pal).

(** [u] is immediately followed by [v] in [c]. *)
Definition follows (c : list Z) (u v : Z) : Prop :=
  exists i : nat, c !! i = Some u /\ c !! S i = Some v.

(** A seed whose chain is generated without an exception: reversal
    raises on a negative number and on a value of more than
    [max_str_digits] digits, unless no step is taken at all. *)
Definition runs (max_iter n : Z) : bool :=
  bool_decide (max_iter <= 0 \/
               (0 <= n /\
                Forall (fun x => x < str_limit) (chain_of n max_iter))).

(** The merge of the contributions of all of [seeds]. *)
Definition graph_of (max_iter : Z) (seeds : list Z) : lychrel_tree.graph :=
  foldr (fun n g =>
           merge (seed_graph n (chain_of n max_iter) (found_of n max_iter)) g)
        empty_graph seeds.

(** A computation that ends with an exception. *)
Definition rejects {A} (r : result A) : Prop := exists e, r = Raise e.

(** A node of the graph without an outgoing edge. *)
Definition dead_end (g : lychrel_tree.graph) (u : Z) : Prop :=
  is_Some (lychrel_tree.level_of g !! u) /\
  forall v, ~ has_edge (lychrel_tree.adjacency g) u v.

(** The reading of the data model under which every dead end is a
    palindrome: the end of a chain that found one, or a palindromic
    seed. *)
Definition dead_ends_are_palindromes (start end_ max_iter : Z) : Prop :=
  forall g u,
    lychrel_tree.build_lychrel_graph start end_ max_iter = Ok g ->
    dead_end g u ->
    (exists c, generated start end_ max_iter c true /\ last c = Some u /\
               lychrel_tree.is_palindrome u = Ok true)
    \/ (start <= u <= end_ /\ lychrel_tree.is_palindrome u = Ok true).

(** The reading of the chain generator under which it returns a chain
    for every seed [>= 0] and bound [>= 1]. *)
Definition chains_always_returned : Prop :=
  forall seed bound, 0 <= seed -> 1 <= bound ->
    exists chain found,
      lychrel_tree.lychrel_chain seed bound = Ok (chain, found).

(** The reading of the two sets of primitives under which they compute
    the same functions on every [n >= 0]. *)
Definition primitives_coincide : Prop :=
  forall n, 0 <= n ->
    lychrel_tree.reverse_num n = Ok (lychrel_graph.reverse_int n) /\
    lychrel_tree.is_palindrome n = Ok (lychrel_graph.is_palindrome n).

(** The reading of the error design under which every violated
    precondition is rejected with an exception. *)
Definition preconditions_are_checked : Prop :=
  forall start end_ max_iter,
    end_ < start \/ max_iter <= 0 \/ start < 0 ->
    rejects (lychrel_tree.build_lychrel_graph start end_ max_iter).

End Model.

Import Model.

(** ** lychrel_tree.py: the layout computed by [plot_lychrel_graph] *)

Module lychrel_tree_plot.

(** [nodes_by_level[lvl].append(node)] on a [defaultdict(list)]. *)
Definition group_step (nodes_by_level : gmap nat (list Z)) (item : Z * nat)
  : gmap nat (list Z) :=
  let '(node, lvl) := item in
  <[lvl := default [] (nodes_by_level !! lvl) ++ [node]]> nodes_by_level.

(** The loop over [level_of.items()].  A [gmap] does not record the
    insertion order that a Python dict iterates in; every row is sorted
    before it is used, so the order of this loop does not reach the
    positions. *)
Definition nodes_by_level (level_of : gmap Z nat) : gmap nat (list Z) :=
  foldl group_step ∅ (map_to_list level_of).

(** [sorted(nodes_by_level.keys())] *)
Definition all_levels (nodes_by_level : gmap nat (list Z)) : list nat :=
  merge_sort Nat.le (map_to_list nodes_by_level).*1.

(** The body of [for i, node in enumerate(row_nodes)]: [x = i - count / 2]
    and [y = -lvl].  The division is Python's true division, which is
    exact on halves of integers below [2^53]; [x] is kept as a rational. *)
Definition place (lvl count : nat) (pos : gmap Z (Q * Z)) (e : nat * Z)
  : gmap Z (Q * Z) :=
  let '(i, node) := e in
  let x := (inject_Z (Z.of_nat i) - inject_Z (Z.of_nat count) / 2)%Q in
  let y := - Z.of_nat lvl in
  <[node := (x, y)]> pos.

(** The body of [for lvl in all_levels]. *)
Definition place_row (nodes_by_level : gmap nat (list Z))
    (pos : gmap Z (Q * Z)) (lvl : nat) : gmap Z (Q * Z) :=
  let row_nodes := merge_sort Z.le (nodes_by_level !!! lvl) in
  let count := length row_nodes in
  foldl (place lvl count) pos (enumerate row_nodes).

(** The dictionary [pos] of [plot_lychrel_graph]. *)
Definition positions (level_of : gmap Z nat) : gmap Z (Q * Z) :=
  let nodes_by_level := nodes_by_level level_of in
  foldl (place_row nodes_by_level) ∅ (all_levels nodes_by_level).

(** The edge loop: [pos[u]] and [pos[v]] raise [KeyError], here [None],
    on a node without a position; otherwise one arrow [(xytext, xy)] is
    drawn per edge. *)
Definition arrows_from (pos : gmap Z (Q * Z)) (item : Z * gset Z)
  : option (list ((Q * Z) * (Q * Z))) :=
  let '(u, next_nodes) := item in
  pu ← pos !! u;
  mapM (fun v => pv ← pos !! v; Some (pu, pv)) (elements next_nodes).

Definition arrows (adjacency : gmap Z (gset Z)) (pos : gmap Z (Q * Z))
  : option (list ((Q * Z) * (Q * Z))) :=
  rows ← mapM (arrows_from pos) (map_to_list adjacency); Some (concat rows).

(** The colour of a node's circle. *)
Definition color (lychrel_seeds : gset Z) (node : Z) : string :=
  if decide (node ∈ lychrel_seeds) then "red" else "skyblue".

End lychrel_tree_plot.

(** The sorted row of a level, as the layout uses it. *)
Definition sorted_row (level_of : gmap Z nat) (lvl : nat) : list Z :=
  merge_sort Z.le (lychrel_tree_plot.nodes_by_level level_of !!! lvl).

(** * Properties *)

(** ** Known values *)

(** [str] prints what stdpp's decimal printer prints. *)
Example str_known :
  Forall (fun n => str n = Ok (String.list_ascii_of_string (pretty n)))
         [0; 7; 10; 120; 8813200023188; -5; -1203].
Proof. repeat constructor. Qed.

Example int_known :
  int (String.list_ascii_of_string "021") = Ok 21 /\
  int (String.list_ascii_of_string "-12") = Ok (-12) /\
  int (String.list_ascii_of_string "5-") = Raise ValueError /\
  int (String.list_ascii_of_string "") = Raise ValueError.
Proof. repeat split. Qed.

Example reverse_known :
  lychrel_graph.reverse_int 120 = 21 /\
  lychrel_tree.reverse_num 120 = Ok 21 /\
  lychrel_graph.reverse_int 0 = 0 /\
  lychrel_tree.reverse_num 0 = Ok 0.
Proof. repeat split. Qed.

(** Seed [89] with bound [30] succeeds at step [24]. *)
Example seed_89 :
  lychrel_graph.palindrome_iterations 89 30 = 24 /\
  exists chain, lychrel_tree.lychrel_chain 89 30 = Ok (chain, true) /\
                length chain = 25%nat.
Proof.
  split; [vm_compute; reflexivity|].
  eexists. split; [vm_compute; reflexivity|reflexivity].
Qed.

(** Seed [196] finds no palindrome within [30] steps and is flagged by
    both aggregators. *)
Example seed_196 :
  lychrel_graph.palindrome_iterations 196 30 = 30 /\
  lychrel_graph.no_palindrome_nums (lychrel_graph.lychrel_graph_save 196 196 30)
  = [196] /\
  exists g, lychrel_tree.build_lychrel_graph 196 196 30 = Ok g /\
            lychrel_tree.lychrel_seeds g = {[196]}.
Proof.
  split; [vm_compute; reflexivity|]. split; [vm_compute; reflexivity|].
  eexists. split; [vm_compute; reflexivity|vm_compute; reflexivity].
Qed.

(** The step counts of the single digits with bound [5]. *)
Example series_1_9 :
  lychrel_graph.lychrel_graph_save 1 9 5
  = lychrel_graph.Series [1; 2; 3; 4; 5; 6; 7; 8; 9]
                         [1; 1; 1; 1; 2; 2; 2; 2; 2] [].
Proof. vm_compute. reflexivity. Qed.

(** ** The division loops *)

Section DigitLoops.

Lemma digit_fuel_enough n : n < 2 ^ Z.of_nat (digit_fuel n).
Proof.
  unfold digit_fuel.
  destruct (Z.le_gt_cases n 0) as [Hn|Hn].
  - pose proof (Z.pow_pos_nonneg 2 (Z.of_nat (S (Z.to_nat (Z.log2 n))))).
    lia.
  - pose proof (Z.log2_spec n Hn) as [_ Hlt].
    pose proof (Z.log2_nonneg n).
    replace (Z.of_nat (S (Z.to_nat (Z.log2 n)))) with (Z.succ (Z.log2 n))
      by lia.
    exact Hlt.
Qed.

Lemma digits_loop_stable f : forall n f',
  n < 2 ^ Z.of_nat f -> (f <= f')%nat ->
  digits_loop f' n = digits_loop f n.
Proof.
  induction f as [|f IH]; intros n f' Hn Hf.
  - simpl in Hn. destruct f'; simpl; [done|].
    destruct (Z.ltb_spec 0 n); [lia|done].
  - destruct f' as [|f']; [lia|]. simpl.
    destruct (Z.ltb_spec 0 n) as [Hpos|]; [|done].
    f_equal. apply IH; [|lia].
    rewrite Nat2Z.inj_succ, Z.pow_succ_r in Hn by lia.
    apply Z.div_lt_upper_bound; lia.
Qed.

Lemma digits_loop_enough f1 f2 n :
  n < 2 ^ Z.of_nat f1 -> n < 2 ^ Z.of_nat f2 ->
  digits_loop f1 n = digits_loop f2 n.
Proof.
  intros H1 H2. destruct (Nat.le_ge_cases f1 f2).
  - symmetry. by apply digits_loop_stable.
  - by apply digits_loop_stable.
Qed.

Lemma digits_unfold n : 0 < n -> digits n = n mod 10 :: digits (n / 10).
Proof.
  intros Hn. unfold digits at 1. unfold digit_fuel at 1. simpl.
  destruct (Z.ltb_spec 0 n); [|lia]. f_equal.
  apply digits_loop_enough; [|apply digit_fuel_enough].
  pose proof (Z.log2_spec n Hn) as [_ Hlt].
  pose proof (Z.log2_nonneg n).
  rewrite Z2Nat.id by done.
  rewrite Z.pow_succ_r in Hlt by done.
  apply Z.div_lt_upper_bound; lia.
Qed.

Lemma digits_nonpos n : n <= 0 -> digits n = [].
Proof.
  intros Hn. unfold digits, digit_fuel. simpl.
  destruct (Z.ltb_spec 0 n); [lia|done].
Qed.

(** Induction over the digits of a non-negative number. *)
Lemma digits_ind (P : Z -> Prop) :
  P 0 -> (forall n, 0 < n -> P (n / 10) -> P n) -> forall n, 0 <= n -> P n.
Proof.
  intros H0 Hstep n Hn. pattern n. apply Zlt_0_ind; [|done].
  clear n Hn. intros n IH Hn.
  destruct (Z.eq_dec n 0) as [->|]; [done|].
  apply Hstep; [lia|]. apply IH.
  split; [apply Z.div_pos; lia | apply Z.div_lt; lia].
Qed.

Lemma digits_is_digit n : Forall is_digit (digits n).
Proof.
  destruct (Z.le_gt_cases 0 n) as [Hn|Hn].
  - revert n Hn. apply digits_ind.
    + rewrite digits_nonpos by done. constructor.
    + intros n Hn IH. rewrite digits_unfold by done. constructor; [|done].
      unfold is_digit. apply Z.mod_pos_bound. lia.
  - rewrite digits_nonpos by lia. constructor.
Qed.

Lemma value_le_digits n : 0 <= n -> value_le (digits n) = n.
Proof.
  revert n. apply digits_ind.
  - by rewrite digits_nonpos.
  - intros n Hn IH. rewrite digits_unfold by done. simpl.
    fold (value_le (digits (n / 10))). rewrite IH.
    pose proof (Z.div_mod n 10). lia.
Qed.

Lemma digits_normal n : normal (digits n).
Proof.
  unfold normal.
  destruct (Z.le_gt_cases 0 n) as [Hn|Hn]; [|by rewrite digits_nonpos by lia].
  revert n Hn. apply digits_ind; [by rewrite digits_nonpos|].
  intros n Hn IH. rewrite digits_unfold by done.
  destruct (Z.eq_dec (n / 10) 0) as [Hq|Hq].
  - rewrite Hq, digits_nonpos by done. simpl. intros [= Hm].
    pose proof (Z.div_mod n 10). lia.
  - assert (0 < n / 10) by (pose proof (Z.div_pos n 10); lia).
    rewrite (digits_unfold (n / 10)) by done.
    rewrite (digits_unfold (n / 10)) in IH by done.
    by rewrite last_cons_cons.
Qed.

Lemma value_le_nonneg l : Forall is_digit l -> 0 <= value_le l.
Proof. unfold is_digit. induction 1; simpl; fold value_le; lia. Qed.

Lemma value_le_pos l :
  Forall is_digit l -> normal l -> l <> [] -> 0 < value_le l.
Proof.
  unfold normal. induction 1 as [|d l Hd Hl IH]; intros Hn Hne; [done|].
  simpl. fold (value_le l). destruct l as [|d' l'].
  - simpl in *. unfold is_digit in Hd.
    assert (d <> 0) by congruence. lia.
  - rewrite last_cons_cons in Hn. unfold is_digit in Hd.
    specialize (IH Hn ltac:(done)). lia.
Qed.

(** A number is determined by its digits, and conversely. *)
Lemma digits_value_le l :
  Forall is_digit l -> normal l -> digits (value_le l) = l.
Proof.
  induction 1 as [|d l Hd Hl IH]; intros Hn.
  - by rewrite digits_nonpos.
  - assert (0 < value_le (d :: l)) as Hpos by (apply value_le_pos; by eauto).
    rewrite digits_unfold by done. simpl. fold (value_le l).
    pose proof (value_le_nonneg l Hl). unfold is_digit in Hd.
    assert ((d + 10 * value_le l) mod 10 = d) as ->
      by (Z.div_mod_to_equations; lia).
    assert ((d + 10 * value_le l) / 10 = value_le l) as ->
      by (Z.div_mod_to_equations; lia).
    f_equal. destruct l as [|d' l'].
    + by rewrite digits_nonpos.
    + apply IH. unfold normal in *. by rewrite last_cons_cons in Hn.
Qed.

Lemma value_le_app l1 l2 :
  value_le (l1 ++ l2) = value_le l1 + 10 ^ Z.of_nat (length l1) * value_le l2.
Proof.
  induction l1 as [|d l1 IH]; [simpl; lia|].
  simpl length. rewrite Nat2Z.inj_succ, Z.pow_succ_r by lia.
  simpl. fold (value_le (l1 ++ l2)) (value_le l1). rewrite IH. lia.
Qed.

Lemma value_le_bound l :
  Forall is_digit l -> 0 <= value_le l < 10 ^ Z.of_nat (length l).
Proof.
  unfold is_digit. induction 1 as [|d l Hd Hl IH].
  - simpl. lia.
  - simpl length. rewrite Nat2Z.inj_succ, Z.pow_succ_r by lia.
    simpl. fold (value_le l). lia.
Qed.

Lemma value_le_inj l1 l2 :
  Forall is_digit l1 -> Forall is_digit l2 -> length l1 = length l2 ->
  value_le l1 = value_le l2 -> l1 = l2.
Proof.
  intros H1. revert l2. induction H1 as [|d1 l1 Hd1 Hl1 IH];
    intros l2 H2 Hlen Hv; destruct H2 as [|d2 l2 Hd2 Hl2]; try done.
  simpl in Hv. fold (value_le l1) (value_le l2) in Hv.
  unfold is_digit in *.
  assert (d1 = d2 /\ value_le l1 = value_le l2) as [-> Hv'] by lia.
  f_equal. apply IH; [done| |done]. simpl in Hlen. lia.
Qed.

(** The accumulator of the reversal loop reads the digits in the order
    the loop meets them. *)
Lemma foldl_horner l acc :
  foldl (fun r d => r * 10 + d) acc l
  = value_le (reverse l) + 10 ^ Z.of_nat (length l) * acc.
Proof.
  revert acc. induction l as [|d l IH]; intros acc; [simpl; lia|].
  simpl foldl. rewrite IH, reverse_cons, value_le_app, length_reverse.
  simpl length. rewrite Nat2Z.inj_succ, Z.pow_succ_r by lia.
  simpl. lia.
Qed.

(** The number of digits against powers of ten. *)
Lemma length_digits_bound (k : nat) : forall n,
  n < 10 ^ Z.of_nat k -> (length (digits n) <= k)%nat.
Proof.
  induction k as [|k IH]; intros n Hn.
  - rewrite digits_nonpos by (simpl in Hn; lia). done.
  - destruct (Z.le_gt_cases n 0) as [H0|H0].
    + rewrite digits_nonpos by done. simpl. lia.
    + rewrite digits_unfold by done. simpl.
      apply le_n_S, IH.
      rewrite Nat2Z.inj_succ, Z.pow_succ_r in Hn by lia.
      apply Z.div_lt_upper_bound; lia.
Qed.

Lemma length_digits_more (k : nat) : forall n,
  10 ^ Z.of_nat k <= n -> (k < length (digits n))%nat.
Proof.
  induction k as [|k IH]; intros n Hn.
  - rewrite digits_unfold by (simpl in Hn; lia). simpl. lia.
  - rewrite Nat2Z.inj_succ, Z.pow_succ_r in Hn by lia.
    assert (0 < 10 ^ Z.of_nat k) by (apply Z.pow_pos_nonneg; lia).
    rewrite digits_unfold by lia. simpl.
    apply (proj1 (Nat.succ_lt_mono _ _)), IH.
    apply Z.div_le_lower_bound; lia.
Qed.

Lemma str_limit_digits : str_limit = 10 ^ Z.of_nat max_str_digits.
Proof. reflexivity. Qed.

Lemma str_limit_pos : 0 < str_limit.
Proof. unfold str_limit. apply Z.pow_pos_nonneg; lia. Qed.

End DigitLoops.

(** ** The primitives of both files, in terms of digit lists *)

Section Primitives.

Lemma reverse_int_loop_snd f : forall num rev,
  snd (lychrel_graph.reverse_int_loop f num rev)
  = foldl (fun r d => r * 10 + d) rev (digits_loop f num).
Proof.
  induction f as [|f IH]; intros num rev; simpl; [done|].
  destruct (0 <? num); [apply IH|done].
Qed.

(** With [digit_fuel] iterations the [while] loop is left because its
    condition [num > 0] fails, not because the fuel ran out. *)
Lemma reverse_int_loop_fst f : forall num rev,
  num < 2 ^ Z.of_nat f ->
  fst (lychrel_graph.reverse_int_loop f num rev) <= 0.
Proof.
  induction f as [|f IH]; intros num rev Hn; [simpl in *; lia|].
  simpl. destruct (Z.ltb_spec 0 num); simpl; [|lia].
  apply IH. rewrite Nat2Z.inj_succ, Z.pow_succ_r in Hn by lia.
  apply Z.div_lt_upper_bound; lia.
Qed.

Lemma reverse_int_exits num :
  fst (lychrel_graph.reverse_int_loop (digit_fuel num) num 0) <= 0.
Proof. apply reverse_int_loop_fst, digit_fuel_enough. Qed.

Lemma reverse_int_digits n :
  lychrel_graph.reverse_int n = value_le (reverse (digits n)).
Proof.
  unfold lychrel_graph.reverse_int. rewrite reverse_int_loop_snd.
  fold (digits n). rewrite foldl_horner. lia.
Qed.

Lemma reverse_int_nonneg n : 0 <= lychrel_graph.reverse_int n.
Proof.
  rewrite reverse_int_digits. apply value_le_nonneg.
  apply Forall_reverse, digits_is_digit.
Qed.

Lemma reverse_int_nonpos n : n <= 0 -> lychrel_graph.reverse_int n = 0.
Proof. intros. by rewrite reverse_int_digits, digits_nonpos. Qed.

Lemma graph_is_palindrome_eq n :
  lychrel_graph.is_palindrome n
  = if n <? 0 then false else lychrel_graph.reverse_int n =? n.
Proof. done. Qed.

Lemma is_digit_cases d :
  is_digit d ->
  d = 0 \/ d = 1 \/ d = 2 \/ d = 3 \/ d = 4 \/
  d = 5 \/ d = 6 \/ d = 7 \/ d = 8 \/ d = 9.
Proof. unfold is_digit. lia. Qed.

Ltac each_digit H :=
  apply is_digit_cases in H;
  repeat (destruct H as [H|H]); subst.

Lemma digit_val_char d : is_digit d -> digit_val (digit_char d) = Some d.
Proof. intros H. each_digit H; reflexivity. Qed.

Lemma digit_char_not_minus d : is_digit d -> digit_char d <> "-"%char.
Proof. intros H. each_digit H; discriminate. Qed.

Lemma digit_char_inj d1 d2 :
  is_digit d1 -> is_digit d2 -> digit_char d1 = digit_char d2 -> d1 = d2.
Proof.
  intros H1 H2 Heq.
  assert (Some d1 = Some d2) as [= ->]; [|done].
  by rewrite <- (digit_val_char d1), <- (digit_val_char d2), Heq.
Qed.

Lemma digit_chars_inj l1 l2 :
  Forall is_digit l1 -> Forall is_digit l2 ->
  digit_char <$> l1 = digit_char <$> l2 -> l1 = l2.
Proof.
  intros H1. revert l2. induction H1 as [|d1 l1 Hd1 Hl1 IH];
    intros l2 H2 Heq; destruct H2 as [|d2 l2 Hd2 Hl2]; try done.
  simpl in Heq. injection Heq as Hd Hl.
  f_equal; [by apply digit_char_inj | by apply IH].
Qed.

Lemma str_loop_digits f : forall n acc,
  str_loop f n acc = reverse (digit_char <$> digits_loop f n) ++ acc.
Proof.
  induction f as [|f IH]; intros n acc; simpl; [done|].
  destruct (0 <? n); [|done].
  rewrite IH, fmap_cons, reverse_cons. by rewrite <- app_assoc.
Qed.

Lemma decimal_pos n : 0 < n -> decimal n = reverse (digit_char <$> digits n).
Proof.
  intros Hn. unfold decimal, str_abs.
  destruct (Z.ltb_spec n 0); [lia|].
  destruct (Z.eqb_spec n 0); [lia|].
  rewrite str_loop_digits. fold (digits n). by rewrite app_nil_r.
Qed.

Lemma decimal_zero : decimal 0 = ["0"%char].
Proof. done. Qed.

Lemma decimal_neg n :
  n < 0 -> decimal n = "-"%char :: reverse (digit_char <$> digits (- n)).
Proof.
  intros Hn. unfold decimal. destruct (Z.ltb_spec n 0); [|lia].
  f_equal. fold (str_abs (- n)).
  assert (decimal (- n) = str_abs (- n)) as <-.
  { unfold decimal. destruct (Z.ltb_spec (- n) 0); [lia|done]. }
  apply decimal_pos. lia.
Qed.

Lemma decimal_abs n :
  decimal n = if n <? 0 then "-"%char :: str_abs (Z.abs n) else str_abs (Z.abs n).
Proof.
  unfold decimal. destruct (Z.ltb_spec n 0).
  - by rewrite Z.abs_neq by lia.
  - by rewrite Z.abs_eq by lia.
Qed.

(** The digits that [str] counts against its limit. *)
Lemma length_str_abs n :
  0 <= n ->
  ((length (str_abs n) <= max_str_digits)%nat <-> n < str_limit).
Proof.
  intros Hn. destruct (Z.eq_dec n 0) as [->|Hne].
  - pose proof str_limit_pos. unfold max_str_digits. simpl. split; lia.
  - assert (str_abs n = decimal n) as ->.
    { unfold decimal. destruct (Z.ltb_spec n 0); [lia|done]. }
    rewrite decimal_pos, length_reverse, length_fmap by lia.
    rewrite str_limit_digits. split.
    + intros Hlen. destruct (Z.lt_ge_cases n (10 ^ Z.of_nat max_str_digits))
        as [|Hge]; [done|].
      apply length_digits_more in Hge. lia.
    + apply length_digits_bound.
Qed.

(** [str] returns the decimal text up to the limit and raises beyond. *)
Lemma str_small n : Z.abs n < str_limit -> str n = Ok (decimal n).
Proof.
  intros Hn. unfold str. cbv zeta.
  destruct (Nat.ltb_spec max_str_digits (length (str_abs (Z.abs n))))
    as [Hlt|Hle].
  - apply length_str_abs in Hn; [lia|apply Z.abs_nonneg].
  - by rewrite decimal_abs.
Qed.

Lemma str_large n : str_limit <= Z.abs n -> str n = Raise ValueError.
Proof.
  intros Hn. unfold str. cbv zeta.
  destruct (Nat.ltb_spec max_str_digits (length (str_abs (Z.abs n))))
    as [Hlt|Hle]; [done|].
  apply length_str_abs in Hle; [lia|apply Z.abs_nonneg].
Qed.

Lemma int_digits_chars l : forall acc,
  Forall is_digit l ->
  int_digits acc (digit_char <$> l)
  = Some (foldl (fun r d => r * 10 + d) acc l).
Proof.
  induction l as [|d l IH]; intros acc Hl; [done|].
  inversion_clear Hl as [|?? Hd Hl']. rewrite fmap_cons.
  cbn [app int_digits]. rewrite digit_val_char by done. by apply IH.
Qed.

Lemma int_digits_minus l : forall acc,
  Forall is_digit l -> int_digits acc ((digit_char <$> l) ++ ["-"%char]) = None.
Proof.
  induction l as [|d l IH]; intros acc Hl; [done|].
  inversion_clear Hl as [|?? Hd Hl']. rewrite fmap_cons.
  cbn [app int_digits]. rewrite digit_val_char by done. by apply IH.
Qed.

(** A string that starts with a digit has no sign for [int] to strip. *)
Lemma int_digit_first d s :
  is_digit d -> int (digit_char d :: s) = int_unsigned (digit_char d :: s).
Proof. intros H. each_digit H; reflexivity. Qed.

Lemma int_unsigned_cons c s :
  int_unsigned (c :: s)
  = if (max_str_digits <? length (c :: s))%nat then Raise ValueError
    else match int_digits 0 (c :: s) with
         | Some v => Ok v
         | None => Raise ValueError
         end.
Proof. done. Qed.

(** Up to the limit the string reversal is the arithmetic one. *)
Lemma reverse_num_small n :
  0 <= n -> n < str_limit ->
  lychrel_tree.reverse_num n = Ok (lychrel_graph.reverse_int n).
Proof.
  intros Hn Hlim. unfold lychrel_tree.reverse_num.
  rewrite str_small by (rewrite Z.abs_eq; lia).
  cbn [mbind result_bind Py.bind].
  destruct (Z.eq_dec n 0) as [->|Hne]; [done|].
  rewrite decimal_pos, reverse_involutive by lia.
  pose proof (digits_is_digit n) as Hd.
  assert (length (digit_char <$> digits n) <= max_str_digits)%nat as Hlen.
  { rewrite length_fmap. apply length_digits_bound.
    by rewrite <- str_limit_digits. }
  rewrite (digits_unfold n) in * by lia.
  inversion Hd as [|?? Hd0 Hd']; subst. rewrite fmap_cons in *.
  rewrite int_digit_first, int_unsigned_cons by done.
  destruct (Nat.ltb_spec max_str_digits
              (length (digit_char (n `mod` 10)
                         :: (digit_char <$> digits (n `div` 10)))));
    [lia|].
  rewrite <- fmap_cons, int_digits_chars by done.
  unfold lychrel_graph.reverse_int. rewrite reverse_int_loop_snd.
  fold (digits n). by rewrite (digits_unfold n) by lia.
Qed.

Lemma reverse_num_large n :
  str_limit <= n -> lychrel_tree.reverse_num n = Raise ValueError.
Proof.
  intros Hn. unfold lychrel_tree.reverse_num.
  by rewrite str_large by lia.
Qed.

Lemma reverse_num_negative n :
  n < 0 -> lychrel_tree.reverse_num n = Raise ValueError.
Proof.
  intros Hn. unfold lychrel_tree.reverse_num.
  destruct (Z.lt_ge_cases (Z.abs n) str_limit) as [Hs|Hl];
    [|by rewrite str_large by lia].
  rewrite str_small by done. cbn [mbind result_bind Py.bind].
  rewrite decimal_neg by done. rewrite reverse_cons. rewrite reverse_involutive.
  pose proof (digits_is_digit (- n)) as Hd.
  rewrite (digits_unfold (- n)) in * by lia.
  inversion Hd as [|?? Hd0 Hd']; subst. rewrite fmap_cons.
  rewrite <- app_comm_cons, int_digit_first, int_unsigned_cons by done.
  destruct (_ <? _)%nat; [done|].
  rewrite app_comm_cons, <- fmap_cons.
  by rewrite int_digits_minus.
Qed.

Lemma reads_same_nonneg n :
  0 <= n -> reads_same n = (lychrel_graph.reverse_int n =? n).
Proof.
  intros Hn. unfold reads_same.
  destruct (Z.eq_dec n 0) as [->|Hne]; [done|].
  rewrite decimal_pos, reverse_involutive by lia.
  rewrite reverse_int_digits.
  pose proof (digits_is_digit n) as Hd.
  destruct (Z.eqb_spec (value_le (reverse (digits n))) n) as [Heq|Hneq].
  - apply bool_decide_eq_true. rewrite <- fmap_reverse. f_equal.
    apply value_le_inj; [by apply Forall_reverse|done|apply length_reverse|].
    by rewrite value_le_digits.
  - apply bool_decide_eq_false. intros Heq. apply Hneq.
    rewrite <- fmap_reverse in Heq.
    apply digit_chars_inj in Heq; [|by apply Forall_reverse|done].
    rewrite Heq. by apply value_le_digits.
Qed.

Lemma reads_same_negative n : n < 0 -> reads_same n = false.
Proof.
  intros Hn. unfold reads_same.
  apply bool_decide_eq_false. rewrite decimal_neg by done.
  rewrite reverse_cons. rewrite reverse_involutive.
  pose proof (digits_is_digit (- n)) as Hd.
  rewrite (digits_unfold (- n)) in * by lia.
  inversion Hd as [|?? Hd0 Hd']; subst. rewrite fmap_cons.
  rewrite <- app_comm_cons. intros [= Hc _].
  by apply (digit_char_not_minus _ Hd0).
Qed.

Lemma reads_same_agree n : reads_same n = lychrel_graph.is_palindrome n.
Proof.
  rewrite graph_is_palindrome_eq. destruct (Z.ltb_spec n 0).
  - by apply reads_same_negative.
  - by apply reads_same_nonneg.
Qed.

(** Up to the limit the string test is the arithmetic one; beyond, [str]
    raises. *)
Lemma tree_is_palindrome_small n :
  Z.abs n < str_limit ->
  lychrel_tree.is_palindrome n = Ok (lychrel_graph.is_palindrome n).
Proof.
  intros Hn. unfold lychrel_tree.is_palindrome. rewrite str_small by done.
  cbn [mbind result_bind Py.bind]. fold (reads_same n).
  by rewrite reads_same_agree.
Qed.

Lemma tree_is_palindrome_large n :
  str_limit <= Z.abs n -> lychrel_tree.is_palindrome n = Raise ValueError.
Proof.
  intros Hn. unfold lychrel_tree.is_palindrome. by rewrite str_large.
Qed.

End Primitives.

(** ** The chain generator *)

Section Chains.

Lemma extend_length k : forall x,
  (length (extend k x).1 <= k)%nat /\
  ((1 <= k)%nat -> (1 <= length (extend k x).1)%nat).
Proof.
  induction k as [|k IH]; intros x; simpl; [lia|].
  destruct (lychrel_graph.is_palindrome (step x)); simpl; [lia|].
  destruct (IH (step x)). lia.
Qed.

Lemma extend_step k : forall x i a b,
  (x :: (extend k x).1) !! i = Some a ->
  (x :: (extend k x).1) !! S i = Some b ->
  b = step a.
Proof.
  induction k as [|k IH]; intros x i a b; simpl.
  - by destruct i.
  - destruct (lychrel_graph.is_palindrome (step x)); simpl.
    + destruct i as [|[|i]]; simpl; congruence.
    + destruct i as [|i]; simpl; [congruence|]. apply IH.
Qed.

(** Every appended value but the last one failed the palindrome test. *)
Lemma extend_interior k : forall x j a,
  (extend k x).1 !! j = Some a -> (S j < length (extend k x).1)%nat ->
  lychrel_graph.is_palindrome a = false.
Proof.
  induction k as [|k IH]; intros x j a; simpl; [done|].
  destruct (lychrel_graph.is_palindrome (step x)) eqn:Hp; simpl.
  - lia.
  - destruct j as [|j]; simpl; [congruence|].
    intros. apply (IH (step x) j); [done|lia].
Qed.

Lemma extend_found k : forall x,
  (extend k x).2 = true ->
  exists a, last (extend k x).1 = Some a /\
            lychrel_graph.is_palindrome a = true.
Proof.
  induction k as [|k IH]; intros x; simpl; [done|].
  destruct (lychrel_graph.is_palindrome (step x)) eqn:Hp; simpl.
  - eauto.
  - intros Hf. destruct (IH _ Hf) as (a & Hl & Ha). exists a. split; [|done].
    destruct (extend k (step x)).1; [done|]. by rewrite last_cons_cons.
Qed.

Lemma extend_exhausted k : forall x,
  (extend k x).2 = false ->
  length (extend k x).1 = k /\
  Forall (fun a => lychrel_graph.is_palindrome a = false) (extend k x).1.
Proof.
  induction k as [|k IH]; intros x; simpl; [done|].
  destruct (lychrel_graph.is_palindrome (step x)) eqn:Hp; simpl; [done|].
  intros Hf. destruct (IH _ Hf). split; [lia|]. by constructor.
Qed.

Lemma step_nonneg x : 0 <= x -> 0 <= step x.
Proof. unfold step. pose proof (reverse_int_nonneg x). lia. Qed.

Lemma extend_nonneg k : forall x,
  0 <= x -> Forall (fun a => 0 <= a) (extend k x).1.
Proof.
  induction k as [|k IH]; intros x Hx; simpl; [constructor|].
  pose proof (step_nonneg x Hx).
  destruct (lychrel_graph.is_palindrome (step x)); simpl.
  - by repeat constructor.
  - constructor; [done|]. by apply IH.
Qed.

(** The loop of [lychrel_chain] on a non-negative value appends exactly
    [extend] when every value it converts is below the limit of [str]. *)
Lemma lychrel_chain_loop_extend steps : forall chain current,
  0 <= current -> steps = [] \/ current < str_limit ->
  Forall (fun x => x < str_limit) (extend (length steps) current).1 ->
  lychrel_tree.lychrel_chain_loop steps chain current
  = Ok (chain ++ (extend (length steps) current).1,
        (extend (length steps) current).2).
Proof.
  induction steps as [|s steps IH]; intros chain current Hc Hlim Hall.
  - simpl. by rewrite app_nil_r.
  - destruct Hlim as [|Hlim]; [done|].
    cbn [lychrel_tree.lychrel_chain_loop length extend] in *.
    rewrite reverse_num_small by done.
    cbn [mbind result_bind Py.bind]. fold (step current) in *.
    pose proof (step_nonneg current Hc) as Hs.
    assert (step current < str_limit) as Hslim.
    { destruct (lychrel_graph.is_palindrome (step current));
        by inversion Hall. }
    rewrite tree_is_palindrome_small by (rewrite Z.abs_eq; lia).
    cbn [mbind result_bind Py.bind].
    destruct (lychrel_graph.is_palindrome (step current)); [done|].
    cbn [fst snd] in *. inversion_clear Hall as [|?? _ Hall'].
    rewrite IH; [by rewrite <- app_assoc|done| |done].
    destruct steps; [by left|by right].
Qed.

(** It raises as soon as a value to convert reaches the limit. *)
Lemma lychrel_chain_loop_raise steps : forall chain current,
  0 <= current -> steps <> [] ->
  ~ (current < str_limit /\
     Forall (fun x => x < str_limit) (extend (length steps) current).1) ->
  lychrel_tree.lychrel_chain_loop steps chain current = Raise ValueError.
Proof.
  induction steps as [|s steps IH]; intros chain current Hc Hne Hnot;
    [done|].
  cbn [lychrel_tree.lychrel_chain_loop length extend] in *.
  destruct (Z.lt_ge_cases current str_limit) as [Hlim|Hlim];
    [|by rewrite reverse_num_large].
  rewrite reverse_num_small by done.
  cbn [mbind result_bind Py.bind]. fold (step current) in *.
  pose proof (step_nonneg current Hc) as Hs.
  destruct (Z.lt_ge_cases (step current) str_limit) as [Hslim|Hslim];
    [|by rewrite tree_is_palindrome_large by (rewrite Z.abs_eq; lia)].
  rewrite tree_is_palindrome_small by (rewrite Z.abs_eq; lia).
  cbn [mbind result_bind Py.bind].
  destruct (lychrel_graph.is_palindrome (step current)).
  - destruct Hnot. split; [done|]. by repeat constructor.
  - cbn [fst snd] in *. apply IH; [done| |].
    + intros ->. destruct Hnot. split; [done|]. by repeat constructor.
    + intros [_ Hall]. destruct Hnot. split; [done|]. by constructor.
Qed.

Lemma length_range a b : length (range a b) = Z.to_nat (b - a).
Proof. apply length_seqZ. Qed.

Lemma lychrel_chain_no_steps n max_iter :
  max_iter <= 0 -> lychrel_tree.lychrel_chain n max_iter = Ok ([n], false).
Proof.
  intros Hm. unfold lychrel_tree.lychrel_chain, range.
  by rewrite seqZ_nil by lia.
Qed.

Lemma lychrel_chain_negative n max_iter :
  n < 0 -> 1 <= max_iter ->
  lychrel_tree.lychrel_chain n max_iter = Raise ValueError.
Proof.
  intros Hn Hm. unfold lychrel_tree.lychrel_chain, range.
  rewrite seqZ_cons by lia. cbn [lychrel_tree.lychrel_chain_loop].
  by rewrite reverse_num_negative.
Qed.

Lemma runs_true max_iter n :
  runs max_iter n = true ->
  lychrel_tree.lychrel_chain n max_iter
  = Ok (chain_of n max_iter, found_of n max_iter).
Proof.
  unfold runs. intros [Hm|[Hn Hall]]%bool_decide_eq_true.
  - rewrite lychrel_chain_no_steps by done. unfold chain_of, found_of.
    by replace (Z.to_nat max_iter) with 0%nat by lia.
  - unfold chain_of in Hall. inversion_clear Hall as [|?? Hlim Hall'].
    unfold lychrel_tree.lychrel_chain.
    rewrite lychrel_chain_loop_extend; rewrite ?length_range, ?Z.sub_0_r;
      [done|done|by right|done].
Qed.

Lemma runs_false max_iter n :
  runs max_iter n = false ->
  lychrel_tree.lychrel_chain n max_iter = Raise ValueError.
Proof.
  unfold runs. intros Hnot%bool_decide_eq_false.
  assert (1 <= max_iter) as Hm by lia.
  destruct (Z.lt_ge_cases n 0) as [Hn|Hn];
    [by apply lychrel_chain_negative|].
  unfold lychrel_tree.lychrel_chain.
  apply lychrel_chain_loop_raise; [done| |].
  - unfold range. rewrite seqZ_cons by lia. done.
  - rewrite length_range, Z.sub_0_r. intros [Hlim Hall]. apply Hnot.
    right. split; [done|]. unfold chain_of. by constructor.
Qed.

(** [lychrel_chain] returns the chain and status of the loop-free model,
    or fails with a [ValueError]. *)
Lemma lychrel_chain_cases n max_iter :
  (runs max_iter n = true /\
   lychrel_tree.lychrel_chain n max_iter
   = Ok (chain_of n max_iter, found_of n max_iter))
  \/ (runs max_iter n = false /\
      lychrel_tree.lychrel_chain n max_iter = Raise ValueError).
Proof.
  destruct (runs max_iter n) eqn:Hr.
  - left. split; [done|]. by apply runs_true.
  - right. split; [done|]. by apply runs_false.
Qed.

Lemma runs_sign max_iter n : runs max_iter n = true -> 0 <= n \/ max_iter <= 0.
Proof. unfold runs. intros H%bool_decide_eq_true. tauto. Qed.

(** Whatever [lychrel_chain] returns is the chain and status of the
    loop-free model. *)
Lemma lychrel_chain_ok_inv n max_iter c found :
  lychrel_tree.lychrel_chain n max_iter = Ok (c, found) ->
  c = chain_of n max_iter /\ found = found_of n max_iter /\
  runs max_iter n = true.
Proof.
  intros Hc. destruct (lychrel_chain_cases n max_iter) as [[Hr Hok]|[_ Hr]].
  - rewrite Hok in Hc. by injection Hc as <- <-.
  - rewrite Hr in Hc. done.
Qed.

(** A value that the loop converted without an exception is below the
    limit: every element of a chain of more than one element. *)
Lemma runs_small max_iter n x :
  runs max_iter n = true -> 1 <= max_iter -> x ∈ chain_of n max_iter ->
  0 <= x < str_limit.
Proof.
  unfold runs. intros [?|[Hn Hall]]%bool_decide_eq_true Hm Hx; [lia|].
  rewrite Forall_forall in Hall. split; [|by apply Hall].
  unfold chain_of in Hx. apply elem_of_cons in Hx as [->|Hx]; [done|].
  pose proof (extend_nonneg (Z.to_nat max_iter) n Hn) as Hnn.
  rewrite Forall_forall in Hnn. by apply Hnn.
Qed.

Lemma palindrome_iterations_loop_extend steps : forall i current,
  lychrel_graph.palindrome_iterations_loop (seqZ i (Z.of_nat steps)) current
  = if (extend steps current).2
    then Some (i + Z.of_nat (length (extend steps current).1) - 1)
    else None.
Proof.
  induction steps as [|k IH]; intros i current; [done|].
  rewrite seqZ_cons by lia. simpl. fold (step current).
  destruct (lychrel_graph.is_palindrome (step current)); simpl.
  - f_equal. lia.
  - replace (Z.pred (Z.of_nat (S k))) with (Z.of_nat k) by lia.
    rewrite IH. destruct (extend k (step current)).2; [|done].
    f_equal. lia.
Qed.

(** The step counter returns the index of the chain's last element when
    the chain found a palindrome, and the bound otherwise. *)
Lemma palindrome_iterations_chain n max_iter :
  lychrel_graph.palindrome_iterations n max_iter
  = if found_of n max_iter
    then Z.of_nat (length (chain_of n max_iter)) - 1
    else max_iter.
Proof.
  unfold lychrel_graph.palindrome_iterations, range, found_of, chain_of.
  destruct (Z.le_gt_cases max_iter 0) as [Hm|Hm].
  - rewrite seqZ_nil by lia.
    by replace (Z.to_nat max_iter) with 0%nat by lia.
  - replace (max_iter + 1 - 1) with (Z.of_nat (Z.to_nat max_iter)) by lia.
    rewrite palindrome_iterations_loop_extend.
    destruct (extend (Z.to_nat max_iter) n).2; simpl; lia.
Qed.

End Chains.

(** ** The reduction: edge union and level minimum *)

Section Merge.

Implicit Types (l : gmap Z nat) (a : gmap Z (gset Z)).
Implicit Types (g : lychrel_tree.graph).

Ltac by_lookup :=
  apply map_eq; intros k; unfold level_merge, adj_merge;
  rewrite ?lookup_union_with, ?lookup_empty;
  repeat match goal with
         | |- context [?m !! k] =>
             is_var m; destruct (m !! k); simpl
         end;
  try done; f_equal.

Lemma level_merge_assoc l1 l2 l3 :
  level_merge l1 (level_merge l2 l3) = level_merge (level_merge l1 l2) l3.
Proof. by_lookup. lia. Qed.

Lemma level_merge_comm l1 l2 : level_merge l1 l2 = level_merge l2 l1.
Proof. by_lookup. lia. Qed.

Lemma level_merge_idemp l1 : level_merge l1 l1 = l1.
Proof. by_lookup. lia. Qed.

Lemma level_merge_empty_l l1 : level_merge ∅ l1 = l1.
Proof. by_lookup. Qed.

Lemma level_merge_empty_r l1 : level_merge l1 ∅ = l1.
Proof. by_lookup. Qed.

Lemma adj_merge_assoc a1 a2 a3 :
  adj_merge a1 (adj_merge a2 a3) = adj_merge (adj_merge a1 a2) a3.
Proof. by_lookup. apply (assoc_L (∪)). Qed.

Lemma adj_merge_comm a1 a2 : adj_merge a1 a2 = adj_merge a2 a1.
Proof. by_lookup. apply (comm_L (∪)). Qed.

Lemma adj_merge_idemp a1 : adj_merge a1 a1 = a1.
Proof. by_lookup. apply (idemp_L (∪)). Qed.

Lemma adj_merge_empty_l a1 : adj_merge ∅ a1 = a1.
Proof. by_lookup. Qed.

Lemma adj_merge_empty_r a1 : adj_merge a1 ∅ = a1.
Proof. by_lookup. Qed.

Lemma merge_assoc g1 g2 g3 :
  merge g1 (merge g2 g3) = merge (merge g1 g2) g3.
Proof.
  unfold merge. simpl.
  by rewrite adj_merge_assoc, level_merge_assoc, (assoc_L (∪)).
Qed.

Lemma merge_comm g1 g2 : merge g1 g2 = merge g2 g1.
Proof.
  unfold merge.
  by rewrite adj_merge_comm, level_merge_comm, (comm_L (∪)).
Qed.

Lemma merge_idemp g1 : merge g1 g1 = g1.
Proof.
  unfold merge. destruct g1. simpl.
  by rewrite adj_merge_idemp, level_merge_idemp, (idemp_L (∪)).
Qed.

Lemma merge_empty_l g1 : merge empty_graph g1 = g1.
Proof.
  unfold merge. destruct g1. simpl.
  by rewrite adj_merge_empty_l, level_merge_empty_l, (left_id_L ∅ (∪)).
Qed.

Lemma merge_empty_r g1 : merge g1 empty_graph = g1.
Proof.
  unfold merge. destruct g1. simpl.
  by rewrite adj_merge_empty_r, level_merge_empty_r, (right_id_L ∅ (∪)).
Qed.

(** The in-place updates of the source are merges with one entry. *)
Lemma set_level_merge node i l1 :
  lychrel_tree.set_level node i l1 = level_merge l1 {[node := i]}.
Proof.
  unfold lychrel_tree.set_level, level_merge. apply map_eq. intros k.
  rewrite lookup_union_with.
  destruct (decide (k = node)) as [->|Hne].
  - rewrite lookup_singleton_eq.
    destruct (l1 !! node) eqn:Hl; by rewrite lookup_insert_eq.
  - rewrite lookup_singleton_ne by done.
    destruct (l1 !! node) eqn:Hl; rewrite lookup_insert_ne by done;
      by destruct (l1 !! k).
Qed.

Lemma add_edge_merge u v a1 :
  lychrel_tree.add_edge u v a1 = adj_merge a1 {[u := {[v]}]}.
Proof.
  unfold lychrel_tree.add_edge, adj_merge. apply map_eq. intros k.
  rewrite lookup_union_with.
  destruct (decide (k = u)) as [->|Hne].
  - rewrite lookup_singleton_eq, lookup_alter_eq.
    destruct (a1 !! u) eqn:Ha; simpl.
    + by rewrite Ha.
    + rewrite lookup_insert_eq. simpl. f_equal. apply (left_id_L ∅ (∪)).
  - rewrite lookup_singleton_ne, lookup_alter_ne by done.
    destruct (a1 !! u) eqn:Ha; rewrite ?lookup_insert_ne by done;
      by destruct (a1 !! k).
Qed.

End Merge.

(** ** The graph builder as a merge *)

Section Builder.

Implicit Types (l : gmap Z nat) (a : gmap Z (gset Z)).
Implicit Types (g : lychrel_tree.graph) (c : list Z).

(** The inner loop, started anywhere in the chain: it always reaches the
    end of the chain (the guard keeps [chain[i + 1]] in range) and adds
    the edges and levels of the part it walks. *)
Lemma for_each_visit suf : forall pre chain i a1 l1,
  chain = pre ++ suf -> i = length pre ->
  for_each (lychrel_tree.visit chain) (a1, l1)
           (imap (fun j => pair (i + j)%nat) suf)
  = Ok (adj_merge a1 (chain_edges suf), level_merge l1 (chain_levels i suf)).
Proof.
  induction suf as [|node rest IH]; intros pre chain i a1 l1 Hc Hi.
  - simpl. by rewrite adj_merge_empty_r, level_merge_empty_r.
  - rewrite imap_cons. cbn [for_each lychrel_tree.visit].
    rewrite Nat.add_0_r.
    assert (length chain = (i + S (length rest))%nat) as Hlen
      by (subst; by rewrite length_app).
    destruct rest as [|nxt rest'].
    + rewrite bool_decide_eq_false_2 by (rewrite Hlen; simpl; lia).
      simpl. rewrite set_level_merge.
      by rewrite adj_merge_empty_r, level_merge_empty_r.
    + rewrite bool_decide_eq_true_2 by (rewrite Hlen; simpl; lia).
      assert (chain !! (i + 1)%nat = Some nxt) as Hnxt.
      { subst. rewrite lookup_app_r by lia.
        by replace (length pre + 1 - length pre)%nat with 1%nat by lia. }
      unfold index. rewrite Hnxt. cbn [Py.bind mbind result_bind].
      rewrite (imap_ext _ (fun j => pair (S i + j)%nat))
        by (intros; simpl; f_equal; lia).
      rewrite (IH (pre ++ [node]) chain (S i)).
      * rewrite add_edge_merge, !set_level_merge.
        cbn [chain_edges chain_levels]. rewrite Nat.add_1_r.
        f_equal. f_equal.
        -- by rewrite adj_merge_assoc.
        -- rewrite <- !level_merge_assoc. f_equal. f_equal.
           by rewrite level_merge_assoc, level_merge_idemp.
      * by rewrite <- app_assoc.
      * rewrite length_app. simpl. lia.
Qed.

Lemma add_seed_chain max_iter g n c found_pal :
  lychrel_tree.lychrel_chain n max_iter = Ok (c, found_pal) ->
  lychrel_tree.add_seed max_iter g n = Ok (merge g (seed_graph n c found_pal)).
Proof.
  intros Hc. unfold lychrel_tree.add_seed. rewrite Hc.
  cbn [Py.bind mbind result_bind].
  unfold enumerate.
  rewrite (for_each_visit c [] c 0%nat) by done.
  cbn [Py.bind mbind result_bind]. unfold merge, seed_graph. simpl.
  f_equal. f_equal.
  destruct found_pal; simpl; [by rewrite (right_id_L ∅ (∪))|done].
Qed.

Lemma add_seed_raise max_iter g n e :
  lychrel_tree.lychrel_chain n max_iter = Raise e ->
  lychrel_tree.add_seed max_iter g n = Raise e.
Proof. intros Hc. unfold lychrel_tree.add_seed. by rewrite Hc. Qed.

(** The outer loop from any accumulated graph. *)
Lemma for_each_add_seed max_iter seeds : forall g,
  for_each (lychrel_tree.add_seed max_iter) g seeds
  = if forallb (runs max_iter) seeds
    then Ok (merge g (graph_of max_iter seeds))
    else Raise ValueError.
Proof.
  induction seeds as [|n seeds IH]; intros g.
  - simpl. by rewrite merge_empty_r.
  - cbn [for_each forallb graph_of foldr].
    destruct (runs max_iter n) eqn:Hr.
    + rewrite (add_seed_chain _ _ _ _ _ (runs_true _ _ Hr)).
      cbn [Py.bind andb]. rewrite IH.
      destruct (forallb (runs max_iter) seeds); [|done].
      by rewrite merge_assoc.
    + by rewrite (add_seed_raise _ _ _ _ (runs_false _ _ Hr)).
Qed.

Lemma build_over_closed max_iter seeds :
  build_over max_iter seeds
  = if forallb (runs max_iter) seeds
    then Ok (graph_of max_iter seeds)
    else Raise ValueError.
Proof.
  unfold build_over. rewrite for_each_add_seed.
  by rewrite merge_empty_l.
Qed.

Lemma build_lychrel_graph_over start end_ max_iter :
  lychrel_tree.build_lychrel_graph start end_ max_iter
  = build_over max_iter (range start (end_ + 1)).
Proof. done. Qed.

Lemma graph_of_app max_iter seeds1 seeds2 :
  graph_of max_iter (seeds1 ++ seeds2)
  = merge (graph_of max_iter seeds1) (graph_of max_iter seeds2).
Proof.
  induction seeds1 as [|n seeds1 IH]; simpl.
  - by rewrite merge_empty_l.
  - fold (graph_of max_iter (seeds1 ++ seeds2)).
    fold (graph_of max_iter seeds1). by rewrite IH, merge_assoc.
Qed.

Lemma graph_of_perm max_iter seeds1 seeds2 :
  seeds1 ≡ₚ seeds2 -> graph_of max_iter seeds1 = graph_of max_iter seeds2.
Proof.
  induction 1 as [|n s1 s2 _ IH|n1 n2 s|s1 s2 s3 _ IH1 _ IH2]; simpl.
  - done.
  - fold (graph_of max_iter s1) (graph_of max_iter s2). by rewrite IH.
  - fold (graph_of max_iter s).
    rewrite !merge_assoc. f_equal. apply merge_comm.
  - congruence.
Qed.

Lemma forallb_perm {A} (f : A -> bool) (l1 l2 : list A) :
  l1 ≡ₚ l2 -> forallb f l1 = forallb f l2.
Proof.
  induction 1 as [|x l1 l2 _ IH|x y l|l1 l2 l3 _ IH1 _ IH2]; simpl.
  - done.
  - by rewrite IH.
  - by destruct (f x), (f y).
  - congruence.
Qed.

Lemma build_over_perm max_iter seeds1 seeds2 :
  seeds1 ≡ₚ seeds2 -> build_over max_iter seeds1 = build_over max_iter seeds2.
Proof.
  intros Hp. rewrite !build_over_closed.
  by rewrite (forallb_perm _ _ _ Hp), (graph_of_perm _ _ _ Hp).
Qed.

Lemma build_over_app max_iter seeds1 seeds2 :
  merge_results (build_over max_iter seeds1) (build_over max_iter seeds2)
  = build_over max_iter (seeds1 ++ seeds2).
Proof.
  rewrite !build_over_closed, forallb_app, graph_of_app.
  unfold merge_results.
  by destruct (forallb (runs max_iter) seeds1),
              (forallb (runs max_iter) seeds2).
Qed.

Lemma merge_all_build_over max_iter (parts : list (list Z)) :
  merge_all (build_over max_iter <$> parts)
  = build_over max_iter (concat parts).
Proof.
  induction parts as [|p parts IH]; [done|].
  rewrite fmap_cons. cbn [merge_all foldr concat].
  fold (merge_all (build_over max_iter <$> parts)).
  by rewrite IH, build_over_app.
Qed.

End Builder.

(** ** Reading the merged graph: edges, keys, levels, flagged seeds *)

Section Lookups.

Implicit Types (l : gmap Z nat) (a : gmap Z (gset Z)).
Implicit Types (c : list Z) (u v : Z).

Lemma has_edge_empty u v : ~ has_edge ∅ u v.
Proof. intros (s & Hs & _). by rewrite lookup_empty in Hs. Qed.

Lemma has_edge_singleton u' v' u v :
  has_edge {[u' := {[v']}]} u v <-> u = u' /\ v = v'.
Proof.
  unfold has_edge. split.
  - intros (s & Hs & Hv). apply lookup_singleton_Some in Hs as [-> <-].
    set_solver.
  - intros [-> ->]. exists {[v']}. rewrite lookup_singleton_eq. set_solver.
Qed.

Lemma has_edge_merge a1 a2 u v :
  has_edge (adj_merge a1 a2) u v <-> has_edge a1 u v \/ has_edge a2 u v.
Proof.
  unfold has_edge, adj_merge. setoid_rewrite lookup_union_with.
  destruct (a1 !! u) as [s1|], (a2 !! u) as [s2|]; simpl.
  - split.
    + intros (s & [= <-] & [?|?]%elem_of_union); eauto.
    + intros [(s & [= <-] & ?)|(s & [= <-] & ?)];
        exists (s1 ∪ s2); (split; [done|]); apply elem_of_union; eauto.
  - split; [intros (s & [= <-] & ?); left; eauto|].
    by intros [?|(s & [=] & _)].
  - split; [intros (s & [= <-] & ?); right; eauto|].
    by intros [(s & [=] & _)|?].
  - split; [by intros (s & [=] & _)|].
    by intros [(s & [=] & _)|(s & [=] & _)].
Qed.

Lemma has_edge_chain c u v : has_edge (chain_edges c) u v <-> follows c u v.
Proof.
  unfold follows. induction c as [|node rest IH]; simpl.
  - split; [by intros ?%has_edge_empty|by intros (i & ? & _)].
  - destruct rest as [|nxt rest'].
    + split; [by intros ?%has_edge_empty|].
      intros (i & _ & Hv). by destruct i.
    + rewrite has_edge_merge, has_edge_singleton, IH. split.
      * intros [[-> ->]|(i & Hu & Hv)]; [by exists 0%nat|by exists (S i)].
      * intros ([|i] & Hu & Hv); simpl in *; [left|right; eauto].
        split; congruence.
Qed.

(** A source that is a key of the adjacency map has a target. *)
Lemma key_merge a1 a2 u :
  is_Some (adj_merge a1 a2 !! u) <-> is_Some (a1 !! u) \/ is_Some (a2 !! u).
Proof.
  unfold adj_merge. rewrite lookup_union_with.
  destruct (a1 !! u) as [s1|], (a2 !! u) as [s2|]; simpl; split; eauto.
  by intros [[? [=]]|[? [=]]].
Qed.

Lemma key_chain c u :
  is_Some (chain_edges c !! u) -> exists v, has_edge (chain_edges c) u v.
Proof.
  induction c as [|node rest IH]; simpl.
  - rewrite lookup_empty. by intros [? ?].
  - destruct rest as [|nxt rest'].
    + rewrite lookup_empty. by intros [? ?].
    + intros [Hk|Hk]%key_merge.
      * destruct (decide (u = node)) as [->|].
        -- exists nxt. apply has_edge_merge. left.
           by apply has_edge_singleton.
        -- rewrite lookup_singleton_ne in Hk by done. by destruct Hk.
      * destruct (IH Hk) as [v Hv]. exists v.
        apply has_edge_merge. by right.
Qed.

Lemma is_min_ext (P Q : nat -> Prop) o :
  (forall j, P j <-> Q j) -> is_min P o -> is_min Q o.
Proof.
  intros HPQ. destruct o as [m|]; simpl.
  - intros [Hm Hle]. split; [by apply HPQ|].
    intros j Hj. apply Hle. by apply HPQ.
  - intros Hn j Hj. apply (Hn j). by apply HPQ.
Qed.

Lemma is_min_merge (P1 P2 : nat -> Prop) l1 l2 u :
  is_min P1 (l1 !! u) -> is_min P2 (l2 !! u) ->
  is_min (fun j => P1 j \/ P2 j) (level_merge l1 l2 !! u).
Proof.
  unfold level_merge. rewrite lookup_union_with.
  destruct (l1 !! u) as [m1|], (l2 !! u) as [m2|]; simpl.
  - intros [H1 Hle1] [H2 Hle2]. split.
    + destruct (Nat.min_spec m1 m2) as [[_ ->]|[_ ->]]; eauto.
    + intros j [Hj|Hj]; [apply Hle1 in Hj|apply Hle2 in Hj]; lia.
  - intros [H1 Hle1] Hn2. split; [eauto|].
    intros j [Hj|Hj]; [eauto|by apply Hn2 in Hj].
  - intros Hn1 [H2 Hle2]. split; [eauto|].
    intros j [Hj|Hj]; [by apply Hn1 in Hj|eauto].
  - intros Hn1 Hn2 j [Hj|Hj]; [by apply Hn1 in Hj|by apply Hn2 in Hj].
Qed.

Lemma is_min_singleton node i u :
  is_min (fun j => u = node /\ j = i) (({[node := i]} : gmap Z nat) !! u).
Proof.
  destruct (decide (u = node)) as [->|Hne].
  - rewrite lookup_singleton_eq. simpl. split; [done|]. intros j [_ ->]. lia.
  - rewrite lookup_singleton_ne by done. simpl. by intros j [? _].
Qed.

(** The level a chain gives a node is the index of its first occurrence. *)
Lemma chain_levels_min c : forall i u,
  is_min (fun m => exists j : nat, c !! j = Some u /\ m = (i + j)%nat)
         (chain_levels i c !! u).
Proof.
  induction c as [|node rest IH]; intros i u; simpl.
  - rewrite lookup_empty. simpl. by intros m (j & ? & _).
  - eapply is_min_ext;
      [|apply is_min_merge; [apply is_min_singleton|apply (IH (S i) u)]].
    intros m. split.
    + intros [[-> ->]|(j & Hj & ->)].
      * exists 0%nat. split; [done|lia].
      * exists (S j). split; [done|lia].
    + intros ([|j] & Hj & ->); simpl in Hj.
      * left. split; [congruence|lia].
      * right. exists j. split; [done|lia].
Qed.

Lemma graph_of_cons max_iter n seeds :
  graph_of max_iter (n :: seeds)
  = merge (seed_graph n (chain_of n max_iter) (found_of n max_iter))
          (graph_of max_iter seeds).
Proof. done. Qed.

Ltac graph_of_head :=
  rewrite ?graph_of_cons;
  cbn [graph_of foldr empty_graph merge seed_graph lychrel_tree.adjacency
       lychrel_tree.level_of lychrel_tree.lychrel_seeds].

Lemma graph_of_edges max_iter seeds u v :
  has_edge (lychrel_tree.adjacency (graph_of max_iter seeds)) u v
  <-> exists n, n ∈ seeds /\ follows (chain_of n max_iter) u v.
Proof.
  induction seeds as [|n seeds IH]; graph_of_head.
  - split; [by intros ?%has_edge_empty|]. intros (n & Hn & _).
    by apply elem_of_nil in Hn.
  - rewrite has_edge_merge, has_edge_chain, IH. split.
    + intros [?|(n' & ? & ?)].
      * exists n. split; [left|done].
      * exists n'. split; [by right|done].
    + intros (n' & [->|?]%elem_of_cons & ?); [by left|right; eauto].
Qed.

Lemma graph_of_keys max_iter seeds u :
  is_Some (lychrel_tree.adjacency (graph_of max_iter seeds) !! u) ->
  exists v, has_edge (lychrel_tree.adjacency (graph_of max_iter seeds)) u v.
Proof.
  induction seeds as [|n seeds IH]; graph_of_head.
  - rewrite lookup_empty. by intros [? ?].
  - intros [Hk|Hk]%key_merge.
    + destruct (key_chain _ _ Hk) as [v Hv]. exists v.
      apply has_edge_merge. by left.
    + destruct (IH Hk) as [v Hv]. exists v. apply has_edge_merge. by right.
Qed.

Lemma graph_of_levels max_iter seeds u :
  is_min (fun m => exists n, n ∈ seeds /\ chain_of n max_iter !! m = Some u)
         (lychrel_tree.level_of (graph_of max_iter seeds) !! u).
Proof.
  induction seeds as [|n seeds IH]; graph_of_head.
  - rewrite lookup_empty. simpl. intros m (n & Hn & _).
    by apply elem_of_nil in Hn.
  - eapply is_min_ext;
      [|apply is_min_merge; [apply (chain_levels_min _ 0%nat u)|apply IH]].
    intros m. split.
    + intros [(j & Hj & ->)|(n' & ? & ?)].
      * exists n. split; [left|done].
      * exists n'. split; [by right|done].
    + intros (n' & [->|?]%elem_of_cons & ?).
      * left. by exists m.
      * right. eauto.
Qed.

Lemma graph_of_seeds max_iter seeds n :
  n ∈ lychrel_tree.lychrel_seeds (graph_of max_iter seeds)
  <-> n ∈ seeds /\ found_of n max_iter = false.
Proof.
  induction seeds as [|n' seeds IH]; graph_of_head.
  - split; [by intros ?%not_elem_of_empty|].
    intros [Hn _]. by apply elem_of_nil in Hn.
  - rewrite elem_of_union, IH, elem_of_cons.
    destruct (found_of n' max_iter) eqn:Hf.
    + split; [|intros [[->|?] ?]; [congruence|by right]].
      intros [?%not_elem_of_empty|[? ?]]; [done|by split; [right|]].
    + rewrite elem_of_singleton. split.
      * intros [->|[? ?]]; [by split; [left|]|by split; [right|]].
      * intros [[->|?] ?]; [by left|by right].
Qed.

End Lookups.

(** ** Reversal and the number of digits *)

Section Reversal.

Lemma reverse_int_pos n : 1 <= n -> 1 <= lychrel_graph.reverse_int n.
Proof.
  intros Hn. rewrite reverse_int_digits.
  pose proof (digits_normal n) as Hnorm.
  pose proof (digits_is_digit n) as Hdig.
  destruct (last (digits n)) as [x|] eqn:Hlast.
  - apply last_Some in Hlast as [l' Hl]. rewrite Hl in *.
    rewrite reverse_snoc. simpl. fold (value_le (reverse l')).
    apply Forall_app in Hdig as [Hl' Hx].
    inversion_clear Hx as [|?? Hx' _]. unfold is_digit in Hx'.
    unfold normal in Hnorm. rewrite last_snoc in Hnorm.
    assert (x <> 0) by congruence.
    pose proof (value_le_nonneg (reverse l')
                  (proj2 (Forall_reverse _ _) Hl')).
    lia.
  - rewrite digits_unfold in Hlast by lia.
    apply last_None in Hlast. done.
Qed.

Lemma digits_times_ten n : 0 < n -> digits (10 * n) = 0 :: digits n.
Proof.
  intros Hn. rewrite digits_unfold by lia. f_equal.
  - Z.div_mod_to_equations; lia.
  - f_equal. Z.div_mod_to_equations; lia.
Qed.

Lemma reverse_int_twice n :
  0 <= n -> n mod 10 <> 0 ->
  lychrel_graph.reverse_int (lychrel_graph.reverse_int n) = n.
Proof.
  intros Hn Hlast.
  rewrite (reverse_int_digits (lychrel_graph.reverse_int n)).
  rewrite (reverse_int_digits n), digits_value_le.
  - by rewrite reverse_involutive, value_le_digits.
  - apply Forall_reverse, digits_is_digit.
  - unfold normal.
    assert (0 < n) by (destruct (Z.eq_dec n 0); [by subst|lia]).
    rewrite digits_unfold, reverse_cons, last_snoc by done. congruence.
Qed.

Lemma reverse_int_shift n :
  0 <= n -> lychrel_graph.reverse_int (10 * n) = lychrel_graph.reverse_int n.
Proof.
  intros Hn. destruct (Z.eq_dec n 0) as [->|Hne]; [done|].
  rewrite !reverse_int_digits, digits_times_ten by lia.
  rewrite reverse_cons, value_le_app. simpl. lia.
Qed.

Lemma reverse_int_pow10 (k : nat) :
  lychrel_graph.reverse_int (10 ^ Z.of_nat k) = 1.
Proof.
  induction k as [|k IH]; [done|].
  rewrite Nat2Z.inj_succ, Z.pow_succ_r by lia.
  rewrite reverse_int_shift; [done|]. apply Z.pow_nonneg. lia.
Qed.

Lemma reverse_int_lt_pow n j :
  0 <= j -> n < 10 ^ j -> lychrel_graph.reverse_int n < 10 ^ j.
Proof.
  intros Hj Hn. rewrite reverse_int_digits.
  pose proof (value_le_bound (reverse (digits n))
                (proj2 (Forall_reverse _ _) (digits_is_digit n))) as [_ Hb].
  rewrite length_reverse in Hb.
  eapply Z.lt_le_trans; [exact Hb|].
  apply Z.pow_le_mono_r; [lia|].
  pose proof (length_digits_bound (Z.to_nat j) n) as Hlen.
  rewrite Z2Nat.id in Hlen by done. specialize (Hlen Hn). lia.
Qed.

End Reversal.

(** ** The limit of [str] along a chain *)

Section Limit.

Lemma str_limit_gt_1 : 1 < str_limit.
Proof. unfold str_limit. apply Z.pow_gt_1; lia. Qed.

Lemma reverse_int_str_limit : lychrel_graph.reverse_int str_limit = 1.
Proof. rewrite str_limit_digits. apply reverse_int_pow10. Qed.

(** A step adds at most one digit. *)
Lemma step_lt_pow x j : 0 <= j -> 0 <= x < 10 ^ j -> step x < 10 ^ (j + 1).
Proof.
  intros Hj [Hx Hlt]. unfold step.
  pose proof (reverse_int_lt_pow x j Hj Hlt).
  rewrite Z.pow_add_r by lia. lia.
Qed.

Lemma extend_lt_pow k : forall x j,
  0 <= j -> 0 <= x < 10 ^ j ->
  Forall (fun a => a < 10 ^ (j + Z.of_nat k)) (extend k x).1.
Proof.
  induction k as [|k IH]; intros x j Hj Hx; [constructor|].
  pose proof (step_lt_pow x j Hj Hx) as Hs.
  pose proof (step_nonneg x (proj1 Hx)) as Hs0.
  assert (10 ^ (j + 1) <= 10 ^ (j + Z.of_nat (S k))) as Hle
    by (apply Z.pow_le_mono_r; lia).
  simpl. destruct (lychrel_graph.is_palindrome (step x)); simpl.
  - repeat constructor. lia.
  - constructor; [lia|].
    replace (j + Z.of_nat (S k)) with ((j + 1) + Z.of_nat k) by lia.
    apply IH; lia.
Qed.

(** Seeds that are short enough for the bound never reach the limit. *)
Lemma runs_short_seed max_iter n :
  0 <= n -> n < 10 ^ (4300 - max_iter) -> runs max_iter n = true.
Proof.
  intros Hn Hlt. unfold runs. apply bool_decide_eq_true.
  destruct (Z.le_gt_cases max_iter 0) as [Hm|Hm]; [by left|right].
  split; [done|].
  assert (0 <= 4300 - max_iter) as Hj.
  { destruct (Z.le_gt_cases 0 (4300 - max_iter)) as [|Hneg]; [done|].
    rewrite Z.pow_neg_r in Hlt by lia. lia. }
  unfold chain_of. constructor.
  - eapply Z.lt_le_trans; [exact Hlt|]. unfold str_limit.
    apply Z.pow_le_mono_r; lia.
  - pose proof (extend_lt_pow (Z.to_nat max_iter) n (4300 - max_iter) Hj
                  (conj Hn Hlt)) as Hall.
    replace (4300 - max_iter + Z.of_nat (Z.to_nat max_iter)) with 4300
      in Hall by lia.
    exact Hall.
Qed.

(** The step counter never returns [0] and never exceeds the bound. *)
Lemma palindrome_iterations_range n max_iter :
  1 <= max_iter ->
  1 <= lychrel_graph.palindrome_iterations n max_iter <= max_iter.
Proof.
  intros Hm. set (k := Z.to_nat max_iter).
  destruct (extend_length k n) as [Hle Hge]. specialize (Hge ltac:(lia)).
  rewrite palindrome_iterations_chain. unfold chain_of, found_of.
  fold k. simpl length. destruct (extend k n).2; lia.
Qed.

End Limit.

(** * The claims *)

(** ** Primitives *)

(** C8. The string primitives of [lychrel_tree.py] and the arithmetic
    primitives of [lychrel_graph.py] do not compute the same functions on
    every [n >= 0].  On [10 ^ 4300], the least number of 4301 digits,
    [str] refuses the conversion, so [reverse_num] and the string
    [is_palindrome] raise [ValueError], while [reverse_int] returns [1]
    and the arithmetic [is_palindrome] returns [False]. *)
Theorem primitives_differ_at_limit :
  str_limit = 10 ^ 4300 /\
  0 <= str_limit /\
  lychrel_graph.reverse_int str_limit = 1 /\
  lychrel_tree.reverse_num str_limit = Raise ValueError /\
  lychrel_graph.is_palindrome str_limit = false /\
  lychrel_tree.is_palindrome str_limit = Raise ValueError /\
  ~ primitives_coincide.
Proof.
  pose proof str_limit_gt_1 as Hgt.
  assert (lychrel_tree.reverse_num str_limit = Raise ValueError) as Hrev
    by (apply reverse_num_large; lia).
  split; [done|]. split; [lia|].
  split; [apply reverse_int_str_limit|]. split; [done|].
  split.
  { rewrite graph_is_palindrome_eq, reverse_int_str_limit.
    destruct (Z.ltb_spec str_limit 0); [done|].
    apply Z.eqb_neq. lia. }
  split; [apply tree_is_palindrome_large; rewrite Z.abs_eq; lia|].
  intros Hall. destruct (Hall str_limit) as [Hr _]; [lia|].
  rewrite Hrev in Hr. discriminate Hr.
Qed.

(** C9. Digit reversal is not an involution, [reverse (reverse 120)] being
    [12]; but it is one on every [n >= 0] whose last digit is not zero,
    for the arithmetic reversal and, below [10 ^ 4300] where the string
    reversal returns, for the string one alike. *)
Theorem reverse_involution :
  lychrel_graph.reverse_int (lychrel_graph.reverse_int 120) = 12 /\
  lychrel_graph.reverse_int (lychrel_graph.reverse_int 120) <> 120 /\
  forall n, 0 <= n -> n mod 10 <> 0 ->
    lychrel_graph.reverse_int (lychrel_graph.reverse_int n) = n /\
    (n < 10 ^ 4300 ->
     (lychrel_tree.reverse_num n ≫= lychrel_tree.reverse_num) = Ok n).
Proof.
  split; [done|]. split; [done|]. intros n Hn Hlast.
  assert (lychrel_graph.reverse_int (lychrel_graph.reverse_int n) = n) as Hinv.
  { rewrite (reverse_int_digits (lychrel_graph.reverse_int n)).
    rewrite (reverse_int_digits n).
    rewrite digits_value_le.
    - by rewrite reverse_involutive, value_le_digits.
    - apply Forall_reverse, digits_is_digit.
    - unfold normal.
      assert (0 < n) by (destruct (Z.eq_dec n 0); [by subst|lia]).
      rewrite digits_unfold, reverse_cons, last_snoc by done. congruence. }
  split; [done|]. change (10 ^ 4300) with str_limit. intros Hlt.
  rewrite reverse_num_small by done. cbn [mbind result_bind Py.bind].
  rewrite reverse_num_small; [by rewrite Hinv|apply reverse_int_nonneg|].
  unfold str_limit in *. apply reverse_int_lt_pow; [lia|done].
Qed.

Lemma reverse_involution_witness :
  0 <= 1234 /\ 1234 mod 10 <> 0 /\
  lychrel_graph.reverse_int (lychrel_graph.reverse_int 1234) = 1234 /\
  (lychrel_tree.reverse_num 1234 ≫= lychrel_tree.reverse_num) = Ok 1234.
Proof.
  split; [lia|]. split; [done|].
  destruct (proj2 (proj2 reverse_involution) 1234) as [Hint Hstr];
    [lia|done|].
  split; [exact Hint|]. apply Hstr. done.
Defined.

(** ** The chain generator *)

(** C1. The chain generator does not return a chain for every
    [seed >= 0] and [bound >= 1].  For the seed [10 ^ 4300] and the bound
    [1] the first reversal converts the seed with [str], which raises
    [ValueError] on a number of 4301 digits, and [lychrel_chain] returns
    nothing; the arithmetic step counter [palindrome_iterations] returns
    [1] on the same input. *)
Theorem chain_raises_at_limit :
  str_limit = 10 ^ 4300 /\
  0 <= str_limit /\
  lychrel_tree.lychrel_chain str_limit 1 = Raise ValueError /\
  lychrel_graph.palindrome_iterations str_limit 1 = 1 /\
  ~ chains_always_returned.
Proof.
  pose proof str_limit_gt_1 as Hgt.
  assert (lychrel_tree.lychrel_chain str_limit 1 = Raise ValueError) as Hr.
  { apply runs_false. unfold runs. apply bool_decide_eq_false.
    intros [Hm|[_ Hall]]; [lia|].
    unfold chain_of in Hall. apply Forall_cons in Hall as [Hlt _]. lia. }
  split; [done|]. split; [lia|]. split; [done|]. split.
  - pose proof (palindrome_iterations_range str_limit 1) as Hpi. lia.
  - intros Hall.
    destruct (Hall str_limit 1) as (chain & found & Hc); [lia..|].
    rewrite Hr in Hc. discriminate Hc.
Qed.

(** ** The series counter *)

Section Series.

Lemma foldl_series_step max_iter seeds : forall s,
  foldl (lychrel_graph.series_step max_iter) s seeds
  = lychrel_graph.Series
      (lychrel_graph.x_vals s ++ seeds)
      (lychrel_graph.y_vals s
         ++ ((fun n => lychrel_graph.palindrome_iterations n max_iter)
               <$> seeds))
      (lychrel_graph.no_palindrome_nums s
         ++ filter (fun n =>
                      lychrel_graph.palindrome_iterations n max_iter
                      = max_iter) seeds).
Proof.
  induction seeds as [|n seeds IH]; intros s.
  - simpl. rewrite !app_nil_r. by destruct s.
  - cbn [foldl]. rewrite IH. unfold lychrel_graph.series_step. simpl.
    rewrite <- !app_assoc. f_equal. rewrite filter_cons.
    destruct (Z.eqb_spec (lychrel_graph.palindrome_iterations n max_iter)
                         max_iter);
      case_decide; try done.
    by rewrite <- app_assoc.
Qed.

Lemma elem_of_range a b n : n ∈ range a b <-> a <= n < b.
Proof. unfold range. rewrite elem_of_seqZ. lia. Qed.

(** A seed of the range is flagged exactly when its step count equals
    the bound. *)
Lemma flagged_iff start end_ max_iter n :
  n ∈ lychrel_graph.no_palindrome_nums
        (lychrel_graph.lychrel_graph_save start end_ max_iter)
  <-> start <= n <= end_ /\
      lychrel_graph.palindrome_iterations n max_iter = max_iter.
Proof.
  unfold lychrel_graph.lychrel_graph_save. rewrite foldl_series_step.
  simpl. rewrite list_elem_of_filter, elem_of_range. lia.
Qed.

(** A chain that finds its palindrome at step [max_iter] itself gets its
    seed flagged all the same: the step count and the marker coincide. *)
Lemma flagged_when_found_at_bound start end_ max_iter n :
  start <= n <= end_ -> 1 <= max_iter ->
  found_of n max_iter = true ->
  Z.of_nat (length (chain_of n max_iter)) = max_iter + 1 ->
  n ∈ lychrel_graph.no_palindrome_nums
        (lychrel_graph.lychrel_graph_save start end_ max_iter).
Proof.
  intros Hn Hm Hf Hlen. apply flagged_iff. split; [done|].
  rewrite palindrome_iterations_chain, Hf. lia.
Qed.

End Series.

(** C2. The series counter of [lychrel_graph.py] flags a seed when its
    step count equals the bound.  Seed [89] reaches its first palindrome
    at step [24]; with bound [24] the chain generator reports success at
    index [24], yet the series counter lists [89] among the numbers that
    did not reach a palindrome.  (The same happens for seed [1] with
    bound [1].) *)
Theorem flagged_although_found :
  (exists chain,
     lychrel_tree.lychrel_chain 89 24 = Ok (chain, true) /\
     length chain = 25%nat /\
     last chain = Some 8813200023188) /\
  lychrel_graph.is_palindrome 8813200023188 = true /\
  lychrel_graph.palindrome_iterations 89 24 = 24 /\
  lychrel_graph.no_palindrome_nums (lychrel_graph.lychrel_graph_save 89 89 24)
  = [89] /\
  lychrel_tree.lychrel_chain 1 1 = Ok ([1; 2], true) /\
  lychrel_graph.no_palindrome_nums (lychrel_graph.lychrel_graph_save 1 1 1)
  = [1].
Proof.
  split.
  { eexists. split; [vm_compute; reflexivity|]. split; reflexivity. }
  repeat split; vm_compute; reflexivity.
Qed.

(** ** The graph builder *)

Section Graph.

Implicit Types (g : lychrel_tree.graph) (u v : Z).

Lemma forallb_runs max_iter seeds n :
  forallb (runs max_iter) seeds = true -> n ∈ seeds ->
  lychrel_tree.lychrel_chain n max_iter
  = Ok (chain_of n max_iter, found_of n max_iter).
Proof.
  intros Hall Hn. apply runs_true.
  rewrite forallb_forall in Hall. apply Hall. by apply list_elem_of_In.
Qed.

(** A returned graph is the merge of the chains of all seeds, none of
    which raised. *)
Lemma build_ok_inv start end_ max_iter g :
  lychrel_tree.build_lychrel_graph start end_ max_iter = Ok g ->
  g = graph_of max_iter (range start (end_ + 1)) /\
  forall n, start <= n <= end_ ->
    lychrel_tree.lychrel_chain n max_iter
    = Ok (chain_of n max_iter, found_of n max_iter).
Proof.
  rewrite build_lychrel_graph_over, build_over_closed.
  destruct (forallb _ _) eqn:Hall; [|done]. intros [= <-]. split; [done|].
  intros n Hn. apply (forallb_runs _ _ _ Hall). apply elem_of_range. lia.
Qed.

(** The builder returns on seeds [>= 0] that are short enough for the
    bound, on an empty range, and when the bound allows no step. *)
Lemma build_returns start end_ max_iter :
  (0 <= start /\ end_ < 10 ^ (4300 - max_iter))
  \/ end_ < start \/ max_iter <= 0 ->
  lychrel_tree.build_lychrel_graph start end_ max_iter
  = Ok (graph_of max_iter (range start (end_ + 1))).
Proof.
  intros Hs. rewrite build_lychrel_graph_over, build_over_closed.
  destruct (forallb _ _) eqn:Hall; [done|].
  apply not_true_iff_false in Hall. destruct Hall.
  apply forallb_forall. intros n Hn%list_elem_of_In%elem_of_range.
  destruct Hs as [[Hstart Hend]|[?|?]]; [|lia|].
  - apply runs_short_seed; lia.
  - unfold runs. apply bool_decide_eq_true. by left.
Qed.

(** A negative seed makes the builder raise, unless no step is taken. *)
Lemma build_raises start end_ max_iter :
  start < 0 -> start <= end_ -> 1 <= max_iter ->
  lychrel_tree.build_lychrel_graph start end_ max_iter = Raise ValueError.
Proof.
  intros Hs He Hm. rewrite build_lychrel_graph_over, build_over_closed.
  destruct (forallb _ _) eqn:Hall; [|done].
  rewrite forallb_forall in Hall. specialize (Hall start).
  unfold runs in Hall. rewrite bool_decide_eq_true in Hall.
  destruct Hall; [|lia|lia]. apply list_elem_of_In, elem_of_range. lia.
Qed.

Lemma palindrome_iterations_negative n max_iter :
  n < 0 -> lychrel_graph.palindrome_iterations n max_iter = max_iter.
Proof.
  intros Hn. unfold lychrel_graph.palindrome_iterations.
  assert (forall steps,
            lychrel_graph.palindrome_iterations_loop steps n = None) as ->;
    [|done].
  induction steps as [|i steps IH]; [done|]. simpl.
  rewrite reverse_int_nonpos, Z.add_0_r by lia.
  rewrite graph_is_palindrome_eq.
  destruct (Z.ltb_spec n 0); [done|lia].
Qed.

Lemma level_present max_iter seeds n (i : nat) u :
  n ∈ seeds -> chain_of n max_iter !! i = Some u ->
  exists m, lychrel_tree.level_of (graph_of max_iter seeds) !! u = Some m /\
            (m <= i)%nat.
Proof.
  intros Hn Hu. pose proof (graph_of_levels max_iter seeds u) as Hmin.
  destruct (lychrel_tree.level_of (graph_of max_iter seeds) !! u) as [m|].
  - exists m. split; [done|]. destruct Hmin as [_ Hle]. apply Hle. eauto.
  - destruct (Hmin i). eauto.
Qed.

Lemma chain_of_step n max_iter (i : nat) a b :
  chain_of n max_iter !! i = Some a -> chain_of n max_iter !! S i = Some b ->
  b = step a.
Proof. apply extend_step. Qed.

(** An occurrence of [u] that is not the last element of its chain, and
    not its seed, is not a palindrome; the last element of an exhausted
    chain has index [max_iter]. *)
Lemma edge_level max_iter seeds u v :
  has_edge (lychrel_tree.adjacency (graph_of max_iter seeds)) u v ->
  exists lu lv,
    lychrel_tree.level_of (graph_of max_iter seeds) !! u = Some lu /\
    lychrel_tree.level_of (graph_of max_iter seeds) !! v = Some lv /\
    (lv <= lu + 1)%nat.
Proof.
  intros (n & Hn & i & Hu & Hv)%graph_of_edges.
  pose proof (graph_of_levels max_iter seeds u) as Hmu.
  destruct (level_present _ _ _ _ _ Hn Hu) as (lu & Hlu & Hlui).
  destruct (level_present _ _ _ _ _ Hn Hv) as (lv & Hlv & Hlvi).
  exists lu, lv. split; [done|]. split; [done|].
  rewrite Hlu in Hmu. destruct Hmu as [(n1 & Hn1 & Hu1) _].
  pose proof (chain_of_step _ _ _ _ _ Hu Hv) as ->.
  destruct (chain_of n1 max_iter !! S lu) as [w|] eqn:Hw.
  - pose proof (chain_of_step _ _ _ _ _ Hu1 Hw) as ->.
    destruct (level_present _ _ _ _ _ Hn1 Hw) as (lv' & Hlv' & ?).
    rewrite Hlv in Hlv'. injection Hlv' as <-. lia.
  - exfalso. apply lookup_ge_None in Hw.
    apply lookup_lt_Some in Hv. unfold chain_of in *. simpl length in *.
    set (k := Z.to_nat max_iter) in *.
    destruct (extend k n1).2 eqn:Hf1.
    + destruct (extend_found k n1 Hf1) as (a & Hlast & Ha).
      rewrite last_lookup in Hlast.
      destruct lu as [|lu'].
      { apply lookup_lt_Some in Hlast. lia. }
      simpl in Hu1. apply lookup_lt_Some in Hu1 as Hlt.
      replace (Init.Nat.pred (length (extend k n1).1)) with lu' in Hlast
        by lia.
      assert (a = u) as -> by congruence.
      destruct i as [|i']; [lia|]. simpl in Hu.
      rewrite (extend_interior k n i' u) in Ha; [done|done|lia].
    + destruct (extend_exhausted k n1 Hf1) as [Hlen _].
      destruct (extend_length k n) as [Hle _]. lia.
Qed.

Lemma dead_end_last max_iter seeds u :
  dead_end (graph_of max_iter seeds) u ->
  exists n, n ∈ seeds /\ last (chain_of n max_iter) = Some u.
Proof.
  intros [[lu Hlu] Hno].
  pose proof (graph_of_levels max_iter seeds u) as Hmu.
  rewrite Hlu in Hmu. destruct Hmu as [(n & Hn & Hu) _].
  exists n. split; [done|]. rewrite last_lookup.
  destruct (chain_of n max_iter !! S lu) as [w|] eqn:Hw.
  - destruct (Hno w). apply graph_of_edges. exists n. split; [done|].
    by exists lu.
  - apply lookup_ge_None in Hw. apply lookup_lt_Some in Hu as Hlt.
    by replace (Init.Nat.pred (length (chain_of n max_iter))) with lu by lia.
Qed.

End Graph.

(** C3. For every range and every [bound >= 1], each edge [u -> v] of the
    adjacency returned by [build_lychrel_graph] occurs in the chain
    generated for some seed of the range, [u] immediately followed by
    [v], and the levels satisfy [level v <= level u + 1].  A graph is
    returned whenever the range is empty or its seeds are [>= 0] and
    below [10 ^ (4300 - bound)], no chain reaching 4301 digits then. *)
Theorem edges_are_realized (start end_ bound : Z) :
  1 <= bound ->
  ((0 <= start /\ end_ < 10 ^ (4300 - bound)) \/ end_ < start ->
   exists g, lychrel_tree.build_lychrel_graph start end_ bound = Ok g) /\
  forall g u v,
    lychrel_tree.build_lychrel_graph start end_ bound = Ok g ->
    has_edge (lychrel_tree.adjacency g) u v ->
    (exists chain found,
       generated start end_ bound chain found /\ follows chain u v) /\
    (exists lu lv,
       lychrel_tree.level_of g !! u = Some lu /\
       lychrel_tree.level_of g !! v = Some lv /\
       (lv <= lu + 1)%nat).
Proof.
  intros _. split.
  { intros Hs. eexists. apply build_returns. tauto. }
  intros g u v [-> Hchains]%build_ok_inv Hedge. split.
  - apply graph_of_edges in Hedge as (n & Hn%elem_of_range & Hfol).
    exists (chain_of n bound), (found_of n bound). split; [|done].
    exists n. split; [lia|]. apply Hchains. lia.
  - by apply edge_level.
Qed.

Lemma edges_are_realized_witness :
  1 <= 2 /\
  lychrel_tree.build_lychrel_graph 5 6 2 = Ok (graph_of 2 [5; 6]) /\
  has_edge (lychrel_tree.adjacency (graph_of 2 [5; 6])) 10 11 /\
  (exists chain found, generated 5 6 2 chain found /\ follows chain 10 11) /\
  (exists lu lv,
     lychrel_tree.level_of (graph_of 2 [5; 6]) !! 10 = Some lu /\
     lychrel_tree.level_of (graph_of 2 [5; 6]) !! 11 = Some lv /\
     (lv <= lu + 1)%nat).
Proof.
  assert (1 <= 2) as Hb by lia.
  assert (has_edge (lychrel_tree.adjacency (graph_of 2 [5; 6])) 10 11) as He.
  { exists {[11]}. split; [vm_compute; reflexivity|set_solver]. }
  split; [exact Hb|]. split; [vm_compute; reflexivity|]. split; [exact He|].
  apply (proj2 (edges_are_realized 5 6 2 Hb) (graph_of 2 [5; 6]) 10 11);
    [vm_compute; reflexivity|exact He].
Defined.

(** C7. For every range [[s, e]] with [s <= e] and every [bound >= 1],
    each seed of the range is a key of the level map that
    [build_lychrel_graph] returns, at level [0]; a graph is returned
    whenever [s >= 0] and [e < 10 ^ (4300 - bound)], no chain reaching
    4301 digits then. *)
Theorem seeds_have_level_zero (s e bound : Z) :
  s <= e -> 1 <= bound ->
  (0 <= s -> e < 10 ^ (4300 - bound) ->
   exists g, lychrel_tree.build_lychrel_graph s e bound = Ok g) /\
  forall g seed,
    lychrel_tree.build_lychrel_graph s e bound = Ok g ->
    s <= seed <= e ->
    lychrel_tree.level_of g !! seed = Some 0%nat.
Proof.
  intros _ _. split.
  - intros Hs He. eexists. apply build_returns. by left.
  - intros g seed [-> _]%build_ok_inv Hseed.
    destruct (level_present bound (range s (e + 1)) seed 0 seed)
      as (m & Hm & Hle); [apply elem_of_range; lia|done|].
    rewrite Hm. f_equal. lia.
Qed.

Lemma seeds_have_level_zero_witness :
  1 <= 3 /\ 1 <= 2 /\
  (0 <= 1 -> 3 < 10 ^ (4300 - 2) ->
   exists g, lychrel_tree.build_lychrel_graph 1 3 2 = Ok g) /\
  forall g seed,
    lychrel_tree.build_lychrel_graph 1 3 2 = Ok g ->
    1 <= seed <= 3 ->
    lychrel_tree.level_of g !! seed = Some 0%nat.
Proof.
  split; [lia|]. split; [lia|]. apply (seeds_have_level_zero 1 3 2); lia.
Defined.

(** C10. In the graph returned by [build_lychrel_graph] over a range with
    [start <= end] and [bound >= 1], every key of the adjacency and every
    member of every edge-target set has an entry in the level map.  A
    graph is returned whenever [start >= 0] and
    [end < 10 ^ (4300 - bound)], no chain reaching 4301 digits then. *)
Theorem adjacency_nodes_have_levels (start end_ bound : Z) :
  start <= end_ -> 1 <= bound ->
  (0 <= start -> end_ < 10 ^ (4300 - bound) ->
   exists g, lychrel_tree.build_lychrel_graph start end_ bound = Ok g) /\
  forall g,
    lychrel_tree.build_lychrel_graph start end_ bound = Ok g ->
    (forall u, is_Some (lychrel_tree.adjacency g !! u) ->
               is_Some (lychrel_tree.level_of g !! u)) /\
    (forall u targets v,
       lychrel_tree.adjacency g !! u = Some targets -> v ∈ targets ->
       is_Some (lychrel_tree.level_of g !! v)).
Proof.
  intros _ _. split.
  { intros Hs He. eexists. apply build_returns. by left. }
  intros g Hb.
  assert (forall u v, has_edge (lychrel_tree.adjacency g) u v ->
                      is_Some (lychrel_tree.level_of g !! u) /\
                      is_Some (lychrel_tree.level_of g !! v)) as Hedge.
  { intros u v He. apply build_ok_inv in Hb as [-> _].
    destruct (edge_level _ _ _ _ He) as (lu & lv & -> & -> & _). eauto. }
  split.
  - intros u Hu. pose proof Hb as [-> _]%build_ok_inv.
    destruct (graph_of_keys _ _ _ Hu) as [v He]. by apply (Hedge u v).
  - intros u targets v Hu Hv. apply (Hedge u v). by exists targets.
Qed.

Lemma adjacency_nodes_have_levels_witness :
  5 <= 6 /\ 1 <= 2 /\
  lychrel_tree.build_lychrel_graph 5 6 2 = Ok (graph_of 2 [5; 6]) /\
  (forall u, is_Some (lychrel_tree.adjacency (graph_of 2 [5; 6]) !! u) ->
             is_Some (lychrel_tree.level_of (graph_of 2 [5; 6]) !! u)) /\
  (forall u targets v,
     lychrel_tree.adjacency (graph_of 2 [5; 6]) !! u = Some targets ->
     v ∈ targets ->
     is_Some (lychrel_tree.level_of (graph_of 2 [5; 6]) !! v)).
Proof.
  assert (5 <= 6) as Hr by lia. assert (1 <= 2) as Hb by lia.
  split; [exact Hr|]. split; [exact Hb|]. split; [vm_compute; reflexivity|].
  apply (proj2 (adjacency_nodes_have_levels 5 6 2 Hr Hb) (graph_of 2 [5; 6])).
  vm_compute; reflexivity.
Defined.

(** C5, counterexample.  With seed [19] and bound [1] the chain is
    [[19; 110]] and is exhausted: [110] is a node without an outgoing
    edge, and it is neither a terminal palindrome nor a palindromic seed,
    since it is no palindrome at all. *)
Lemma dead_end_not_palindrome : ~ dead_ends_are_palindromes 19 19 1.
Proof.
  intros Hclaim.
  assert (lychrel_tree.build_lychrel_graph 19 19 1 = Ok (graph_of 1 [19]))
    as Hb by (vm_compute; reflexivity).
  assert (dead_end (graph_of 1 [19]) 110) as Hd.
  { split; [exists 1%nat; vm_compute; reflexivity|].
    intros v (s & Hs & _). vm_compute in Hs. discriminate Hs. }
  assert (lychrel_tree.is_palindrome 110 = Ok false) as Hp
    by (vm_compute; reflexivity).
  destruct (Hclaim _ _ Hb Hd) as [(c & _ & _ & Hpal)|[_ Hpal]]; congruence.
Qed.

(** C5, amended.  In the graph returned by [build_lychrel_graph] over any
    range and bound, every node without an outgoing edge is the last
    element of the chain generated for some seed of the range: the
    terminal palindrome of a chain that found one, or the last value of a
    chain that exhausted the bound (no palindrome when [bound >= 1]).  A
    graph is returned whenever the range is empty or its seeds are [>= 0]
    and below [10 ^ (4300 - bound)], no chain reaching 4301 digits
    then. *)
Theorem dead_ends_end_chains (start end_ bound : Z) :
  ((0 <= start /\ end_ < 10 ^ (4300 - bound)) \/ end_ < start ->
   exists g, lychrel_tree.build_lychrel_graph start end_ bound = Ok g) /\
  forall g u,
    lychrel_tree.build_lychrel_graph start end_ bound = Ok g ->
    dead_end g u ->
    exists chain found,
      generated start end_ bound chain found /\
      last chain = Some u /\
      (found = true -> lychrel_tree.is_palindrome u = Ok true) /\
      (found = false ->
       length chain = S (Z.to_nat bound) /\
       (1 <= bound -> lychrel_tree.is_palindrome u = Ok false)).
Proof.
  split.
  { intros Hs. eexists. apply build_returns. tauto. }
  intros g u [-> Hchains]%build_ok_inv Hd.
  destruct (dead_end_last _ _ _ Hd) as (n & Hn%elem_of_range & Hlast).
  exists (chain_of n bound), (found_of n bound).
  assert (lychrel_tree.lychrel_chain n bound
          = Ok (chain_of n bound, found_of n bound)) as Hc
    by (apply Hchains; lia).
  split; [by exists n; split; [lia|]|].
  split; [done|].
  apply lychrel_chain_ok_inv in Hc as (_ & _ & Hr).
  assert (1 <= bound ->
          lychrel_tree.is_palindrome u = Ok (lychrel_graph.is_palindrome u))
    as Htree.
  { intros Hb. apply tree_is_palindrome_small.
    destruct (runs_small bound n u Hr Hb) as [? ?].
    - rewrite last_lookup in Hlast. by eapply list_elem_of_lookup_2.
    - rewrite Z.abs_eq; lia. }
  clear Hr. unfold chain_of, found_of in *.
  set (k := Z.to_nat bound) in *. split.
  - intros Hf. destruct (extend_found k n Hf) as (a & Ha & Hpal).
    assert (1 <= bound) as Hb.
    { destruct k eqn:Hk; [done|]. lia. }
    rewrite Htree by done. f_equal.
    destruct (extend k n).1 as [|x ext]; [done|].
    rewrite last_cons_cons in Hlast. congruence.
  - intros Hf. destruct (extend_exhausted k n Hf) as [Hlen Hall].
    split; [simpl; lia|]. intros Hbound. rewrite Htree by done. f_equal.
    destruct (extend k n).1 as [|x ext]; [simpl in Hlen; lia|].
    rewrite last_cons_cons in Hlast.
    rewrite Forall_forall in Hall. apply Hall.
    apply list_elem_of_lookup. rewrite last_lookup in Hlast. eauto.
Qed.

Lemma dead_ends_end_chains_witness :
  lychrel_tree.build_lychrel_graph 19 19 1 = Ok (graph_of 1 [19]) /\
  dead_end (graph_of 1 [19]) 110 /\
  exists chain found,
    generated 19 19 1 chain found /\
    last chain = Some 110 /\
    (found = true -> lychrel_tree.is_palindrome 110 = Ok true) /\
    (found = false ->
     length chain = S (Z.to_nat 1) /\
     (1 <= 1 -> lychrel_tree.is_palindrome 110 = Ok false)).
Proof.
  assert (dead_end (graph_of 1 [19]) 110) as Hd.
  { split; [exists 1%nat; vm_compute; reflexivity|].
    intros v (s & Hs & _). vm_compute in Hs. discriminate Hs. }
  split; [vm_compute; reflexivity|]. split; [exact Hd|].
  apply (proj2 (dead_ends_end_chains 19 19 1) (graph_of 1 [19]) 110);
    [vm_compute; reflexivity|exact Hd].
Defined.

(** C4. Building the graph over [[s, e]] in one pass gives the same
    result as building it over sub-ranges that together hold each seed of
    [[s, e]] exactly once, in any order, and merging the partial results
    by edge-set union, pointwise level minimum and union of the flagged
    seeds; it also gives the same result as processing the seeds one by
    one in any order.  The reduction is associative, commutative and
    idempotent, with the empty graph as unit. *)
Theorem build_is_a_merge (s e bound : Z) :
  (forall parts : list (Z * Z),
     concat ((fun p => range p.1 (p.2 + 1)) <$> parts) ≡ₚ range s (e + 1) ->
     merge_all ((fun p => lychrel_tree.build_lychrel_graph p.1 p.2 bound)
                  <$> parts)
     = lychrel_tree.build_lychrel_graph s e bound) /\
  (forall seeds : list Z,
     seeds ≡ₚ range s (e + 1) ->
     build_over bound seeds = lychrel_tree.build_lychrel_graph s e bound) /\
  (forall g1 g2 g3, merge g1 (merge g2 g3) = merge (merge g1 g2) g3) /\
  (forall g1 g2, merge g1 g2 = merge g2 g1) /\
  (forall g1, merge g1 g1 = g1 /\ merge empty_graph g1 = g1).
Proof.
  split; [|split; [|split; [|split]]].
  - intros parts Hperm. rewrite build_lychrel_graph_over.
    rewrite <- (build_over_perm _ _ _ Hperm), <- merge_all_build_over.
    by rewrite <- list_fmap_compose.
  - intros seeds Hperm. rewrite build_lychrel_graph_over.
    by apply build_over_perm.
  - apply merge_assoc.
  - apply merge_comm.
  - intros g1. split; [apply merge_idemp|apply merge_empty_l].
Qed.

Lemma build_is_a_merge_witness :
  concat ((fun p => range p.1 (p.2 + 1)) <$> [(8, 9); (5, 7)])
    ≡ₚ range 5 (9 + 1) /\
  merge_all ((fun p => lychrel_tree.build_lychrel_graph p.1 p.2 3)
               <$> [(8, 9); (5, 7)])
  = lychrel_tree.build_lychrel_graph 5 9 3.
Proof.
  assert (concat ((fun p => range p.1 (p.2 + 1)) <$> [(8, 9); (5, 7)])
            ≡ₚ range 5 (9 + 1)) as Hperm.
  { vm_compute. apply (Permutation_app_comm [8; 9] [5; 6; 7]). }
  split; [exact Hperm|].
  apply (proj1 (build_is_a_merge 5 9 3) [(8, 9); (5, 7)] Hperm).
Defined.

(** ** Inputs outside the preconditions *)

(** C6, counterexample.  Both palindrome tests answer [False] on [-5]
    instead of rejecting it, and [build_lychrel_graph 5 3 10], whose range
    is empty because [start > end], returns the empty graph instead of
    raising. *)
Lemma violations_not_rejected :
  lychrel_graph.is_palindrome (-5) = false /\
  lychrel_tree.is_palindrome (-5) = Ok false /\
  ~ preconditions_are_checked.
Proof.
  split; [done|]. split; [vm_compute; reflexivity|].
  intros Hclaim. destruct (Hclaim 5 3 10) as [e He]; [lia|].
  vm_compute in He. discriminate He.
Qed.

(** C6, amended.  No input is validated.  On a negative number the
    arithmetic palindrome test returns [False], as does the string one
    when the number has at most 4300 digits, and [reverse_int] returns
    [0]; only the string reversal [reverse_num] raises, a [ValueError].
    Hence
    [lychrel_chain] on a negative seed with [bound >= 1], and
    [build_lychrel_graph] over a non-empty range that starts below zero,
    raise [ValueError] and return nothing, while [palindrome_iterations]
    on a negative seed returns the bound.  An empty range ([start > end])
    gives empty results without an error, and a bound [<= 0] gives the
    chain [[seed]] with status not-found, the step count [bound], and a
    graph that flags every seed. *)
Theorem violations_as_coded :
  (forall n, n < 0 ->
     lychrel_graph.is_palindrome n = false /\
     (- 10 ^ 4300 < n -> lychrel_tree.is_palindrome n = Ok false) /\
     lychrel_graph.reverse_int n = 0 /\
     lychrel_tree.reverse_num n = Raise ValueError) /\
  (forall seed bound, seed < 0 -> 1 <= bound ->
     lychrel_tree.lychrel_chain seed bound = Raise ValueError /\
     lychrel_graph.palindrome_iterations seed bound = bound) /\
  (forall start end_ bound, start < 0 -> start <= end_ -> 1 <= bound ->
     lychrel_tree.build_lychrel_graph start end_ bound = Raise ValueError) /\
  (forall start end_ bound, end_ < start ->
     lychrel_tree.build_lychrel_graph start end_ bound = Ok empty_graph /\
     lychrel_graph.lychrel_graph_save start end_ bound
     = lychrel_graph.Series [] [] []) /\
  (forall seed bound, bound <= 0 ->
     lychrel_tree.lychrel_chain seed bound = Ok ([seed], false) /\
     lychrel_graph.palindrome_iterations seed bound = bound) /\
  (forall start end_ bound, bound <= 0 ->
     exists g, lychrel_tree.build_lychrel_graph start end_ bound = Ok g /\
               forall n, start <= n <= end_ ->
                         n ∈ lychrel_tree.lychrel_seeds g).
Proof.
  split; [|split; [|split; [|split; [|split]]]].
  - intros n Hn. change (10 ^ 4300) with str_limit.
    assert (lychrel_graph.is_palindrome n = false) as Hpal.
    { rewrite graph_is_palindrome_eq. destruct (Z.ltb_spec n 0); [done|lia]. }
    split; [done|]. split.
    { intros Hlim. rewrite tree_is_palindrome_small, Hpal; [done|].
      rewrite Z.abs_neq; lia. }
    split; [apply reverse_int_nonpos; lia|by apply reverse_num_negative].
  - intros seed bound Hs Hb. split.
    + by apply lychrel_chain_negative.
    + by apply palindrome_iterations_negative.
  - apply build_raises.
  - intros start end_ bound Hr. split.
    + rewrite build_returns by (right; by left).
      unfold range. by rewrite seqZ_nil by lia.
    + unfold lychrel_graph.lychrel_graph_save, range.
      by rewrite seqZ_nil by lia.
  - intros seed bound Hb. split; [by apply lychrel_chain_no_steps|].
    unfold lychrel_graph.palindrome_iterations, range.
    by rewrite seqZ_nil by lia.
  - intros start end_ bound Hb. eexists.
    split; [apply build_returns; by right; right|].
    intros n Hn. apply graph_of_seeds. split; [apply elem_of_range; lia|].
    unfold found_of. by replace (Z.to_nat bound) with 0%nat by lia.
Qed.

Lemma violations_as_coded_witness :
  (-5 < 0 /\
   lychrel_graph.is_palindrome (-5) = false /\
   (- 10 ^ 4300 < -5 -> lychrel_tree.is_palindrome (-5) = Ok false) /\
   lychrel_graph.reverse_int (-5) = 0 /\
   lychrel_tree.reverse_num (-5) = Raise ValueError) /\
  (-3 < 0 /\ -3 <= 4 /\ 1 <= 10 /\
   lychrel_tree.build_lychrel_graph (-3) 4 10 = Raise ValueError) /\
  (3 < 5 /\
   lychrel_tree.build_lychrel_graph 5 3 10 = Ok empty_graph /\
   lychrel_graph.lychrel_graph_save 5 3 10 = lychrel_graph.Series [] [] []) /\
  (0 <= 0 /\
   lychrel_tree.lychrel_chain 7 0 = Ok ([7], false) /\
   lychrel_graph.palindrome_iterations 7 0 = 0).
Proof.
  destruct violations_as_coded as (H1 & _ & H3 & H4 & H5 & _).
  split; [split; [lia|apply (H1 (-5)); lia]|].
  split; [repeat (split; [lia|]); apply (H3 (-3) 4 10); lia|].
  split; [split; [lia|apply (H4 5 3 10); lia]|].
  split; [lia|apply (H5 7 0); lia].
Defined.

(** * Further properties of the code *)

(** ** Digit reversal *)

(** X1. Reversal drops trailing zeros: for every [n >= 0], [10 * n]
    and [n] have the same reversal. *)
Theorem reverse_int_trailing_zero (n : Z) :
  0 <= n ->
  lychrel_graph.reverse_int (10 * n) = lychrel_graph.reverse_int n.
Proof.
  intros Hn. destruct (Z.eq_dec n 0) as [->|Hne]; [done|].
  rewrite !reverse_int_digits, digits_times_ten by lia.
  rewrite reverse_cons, value_le_app. simpl. lia.
Qed.

Lemma reverse_int_trailing_zero_witness :
  0 <= 123 /\
  lychrel_graph.reverse_int (10 * 123) = lychrel_graph.reverse_int 123.
Proof. split; [lia|]. apply (reverse_int_trailing_zero 123). lia. Defined.

(** X2. Reversal never produces more digits and never produces zero from
    a positive number: if [1 <= n < 10 ^ k] then
    [1 <= reverse_int n < 10 ^ k]. *)
Theorem reverse_int_bounds (n k : Z) :
  0 <= k -> 1 <= n -> n < 10 ^ k ->
  1 <= lychrel_graph.reverse_int n < 10 ^ k.
Proof.
  intros Hk Hn Hlt. split; [by apply reverse_int_pos|].
  rewrite reverse_int_digits.
  pose proof (value_le_bound (reverse (digits n))
                (proj2 (Forall_reverse _ _) (digits_is_digit n))) as [_ Hb].
  rewrite length_reverse in Hb.
  eapply Z.lt_le_trans; [exact Hb|].
  apply Z.pow_le_mono_r; [lia|].
  pose proof (length_digits_bound (Z.to_nat k) n) as Hlen.
  rewrite Z2Nat.id in Hlen by done. specialize (Hlen Hlt). lia.
Qed.

Lemma reverse_int_bounds_witness :
  0 <= 3 /\ 1 <= 120 /\ 120 < 10 ^ 3 /\
  1 <= lychrel_graph.reverse_int 120 < 10 ^ 3.
Proof.
  assert (0 <= 3) as Hk by lia. assert (1 <= 120) as Hn by lia.
  assert (120 < 10 ^ 3) as Hlt by (vm_compute; reflexivity).
  split; [exact Hk|]. split; [exact Hn|]. split; [exact Hlt|].
  apply (reverse_int_bounds 120 3 Hk Hn Hlt).
Defined.

(** ** Chains under a changing bound *)

Section Bounds.

(** Once a chain has found its palindrome, more steps change nothing. *)
Lemma extend_found_more k : forall x k',
  (extend k x).2 = true -> (length (extend k x).1 <= k')%nat ->
  extend k' x = extend k x.
Proof.
  induction k as [|k IH]; intros x k'; simpl; [done|].
  destruct (lychrel_graph.is_palindrome (step x)) eqn:Hp; simpl.
  - intros _ Hlen. destruct k' as [|k']; [lia|]. simpl. by rewrite Hp.
  - intros Hf Hlen. destruct k' as [|k']; [lia|]. simpl. rewrite Hp.
    by rewrite (IH (step x) k') by (done || lia).
Qed.

Lemma extend_prefix k : forall x k',
  (k <= k')%nat -> (extend k x).1 `prefix_of` (extend k' x).1.
Proof.
  induction k as [|k IH]; intros x k' Hk; simpl; [apply prefix_nil|].
  destruct k' as [|k']; [lia|]. simpl.
  destruct (lychrel_graph.is_palindrome (step x)); simpl; [done|].
  apply prefix_cons, IH. lia.
Qed.

(** A chain is exhausted at a bound exactly when one more step either
    exhausts it too or finds the palindrome at that very last step. *)
Lemma extend_exhausted_succ k x :
  (extend k x).2 = false <->
  (extend (S k) x).2 = false \/ length (extend (S k) x).1 = S k.
Proof.
  split.
  - intros Hk. destruct (extend (S k) x).2 eqn:Hf; [right|by left].
    destruct (extend_length (S k) x) as [Hle _].
    destruct (decide (length (extend (S k) x).1 = S k)) as [|Hne]; [done|].
    rewrite <- (extend_found_more (S k) x k) in Hf by (done || lia).
    congruence.
  - intros [Hf|Hlen].
    + destruct (extend k x).2 eqn:Hk; [|done].
      rewrite <- (extend_found_more k x (S k)) in Hk; [congruence|done|].
      destruct (extend_length k x). lia.
    + destruct (extend k x).2 eqn:Hk; [|done].
      destruct (extend_length k x) as [Hle _].
      rewrite (extend_found_more k x (S k)) in Hlen by (done || lia). lia.
Qed.

Lemma reverse_int_pos_step x : 1 <= x -> x < step x.
Proof. intros Hx. unfold step. pose proof (reverse_int_pos x Hx). lia. Qed.

Lemma extend_increasing k : forall x (i : nat) a b,
  1 <= x ->
  (x :: (extend k x).1) !! i = Some a ->
  (x :: (extend k x).1) !! S i = Some b ->
  1 <= a < b.
Proof.
  induction k as [|k IH]; intros x i a b Hx; simpl.
  - by destruct i.
  - pose proof (reverse_int_pos_step x Hx).
    destruct (lychrel_graph.is_palindrome (step x)); simpl.
    + destruct i as [|[|i]]; simpl; [|done|done].
      intros [= <-] [= <-]. lia.
    + destruct i as [|i]; simpl.
      * intros [= <-] [= <-]. lia.
      * apply IH. lia.
Qed.

(** An element of a returned chain that has a successor, or that is not
    the seed, was converted by [str], so it is below the limit. *)
Lemma chain_of_small n max_iter (i : nat) x :
  runs max_iter n = true -> chain_of n max_iter !! i = Some x ->
  (1 <= i)%nat \/ is_Some (chain_of n max_iter !! S i) ->
  0 <= x < str_limit.
Proof.
  intros Hr Hx Hi. apply (runs_small max_iter n x Hr).
  - destruct (Z.le_gt_cases max_iter 0) as [Hm|]; [|lia].
    exfalso. assert (2 <= length (chain_of n max_iter))%nat as Hlen.
    { destruct Hi as [Hi|[y Hy]].
      - apply lookup_lt_Some in Hx. lia.
      - apply lookup_lt_Some in Hy. lia. }
    unfold chain_of in Hlen.
    replace (Z.to_nat max_iter) with 0%nat in Hlen by lia. simpl in Hlen. lia.
  - by eapply list_elem_of_lookup_2.
Qed.

End Bounds.

(** X3. In every chain that [lychrel_chain] returns, each element is its
    predecessor plus the reversal of its predecessor, which the string
    reversal computes without an exception; and a chain that starts at a
    seed [>= 1] is strictly increasing, so it never visits a value
    twice. *)
Theorem chain_recurrence (seed bound : Z) chain found (i : nat) x y :
  lychrel_tree.lychrel_chain seed bound = Ok (chain, found) ->
  chain !! i = Some x -> chain !! S i = Some y ->
  y = x + lychrel_graph.reverse_int x /\
  lychrel_tree.reverse_num x = Ok (y - x) /\
  (1 <= seed -> x < y).
Proof.
  intros (-> & -> & Hr)%lychrel_chain_ok_inv Hx Hy.
  pose proof (chain_of_step _ _ _ _ _ Hx Hy) as ->.
  destruct (chain_of_small seed bound i x Hr Hx) as [Hx0 Hlim]; [eauto|].
  split; [done|]. split.
  - rewrite reverse_num_small by done. unfold step. f_equal. lia.
  - intros Hs. unfold chain_of in *.
    destruct (extend_increasing _ _ _ _ _ Hs Hx Hy). done.
Qed.

Lemma chain_recurrence_witness :
  lychrel_tree.lychrel_chain 19 3 = Ok ([19; 110; 121], true) /\
  [19; 110; 121] !! 1%nat = Some 110 /\
  [19; 110; 121] !! 2%nat = Some 121 /\
  121 = 110 + lychrel_graph.reverse_int 110 /\
  lychrel_tree.reverse_num 110 = Ok (121 - 110) /\
  (1 <= 19 -> 110 < 121).
Proof.
  assert (lychrel_tree.lychrel_chain 19 3 = Ok ([19; 110; 121], true)) as Hc
    by (vm_compute; reflexivity).
  split; [exact Hc|]. split; [reflexivity|]. split; [reflexivity|].
  apply (chain_recurrence 19 3 [19; 110; 121] true 1 110 121 Hc);
    reflexivity.
Defined.

(** X4. When [lychrel_chain] reports no palindrome, the chain has exactly
    [max(max_iter, 0) + 1] elements and none of them after the seed is a
    palindrome, for either palindrome test. *)
Theorem exhausted_chain (seed bound : Z) chain :
  lychrel_tree.lychrel_chain seed bound = Ok (chain, false) ->
  length chain = S (Z.to_nat bound) /\
  forall (j : nat) x, (1 <= j)%nat -> chain !! j = Some x ->
    lychrel_tree.is_palindrome x = Ok false /\
    lychrel_graph.is_palindrome x = false.
Proof.
  intros (-> & Hf & Hr)%lychrel_chain_ok_inv. symmetry in Hf.
  assert (forall (j : nat) x, (1 <= j)%nat ->
            chain_of seed bound !! j = Some x ->
            lychrel_tree.is_palindrome x
            = Ok (lychrel_graph.is_palindrome x)) as Htree.
  { intros j x Hj Hx. apply tree_is_palindrome_small.
    destruct (chain_of_small seed bound j x Hr Hx) as [? ?]; [by left|].
    rewrite Z.abs_eq; lia. }
  revert Htree. unfold chain_of, found_of in *. intros Htree.
  destruct (extend_exhausted _ _ Hf) as [Hlen Hall].
  split; [simpl; lia|]. intros [|j] x Hj Hx; [lia|].
  assert (lychrel_graph.is_palindrome x = false) as Hp.
  { simpl in Hx. rewrite Forall_forall in Hall.
    apply Hall, list_elem_of_lookup; eauto. }
  split; [|done]. by rewrite (Htree _ _ Hj Hx), Hp.
Qed.

Lemma exhausted_chain_witness :
  lychrel_tree.lychrel_chain 196 3 = Ok ([196; 887; 1675; 7436], false) /\
  length [196; 887; 1675; 7436] = S (Z.to_nat 3) /\
  forall (j : nat) x, (1 <= j)%nat ->
    [196; 887; 1675; 7436] !! j = Some x ->
    lychrel_tree.is_palindrome x = Ok false /\
    lychrel_graph.is_palindrome x = false.
Proof.
  assert (lychrel_tree.lychrel_chain 196 3
          = Ok ([196; 887; 1675; 7436], false)) as Hc
    by (vm_compute; reflexivity).
  split; [exact Hc|].
  apply (exhausted_chain 196 3 [196; 887; 1675; 7436] Hc).
Defined.

(** X5. Raising the bound never changes a chain that found its
    palindrome: the larger bound returns the same chain.  In general it
    only appends to a chain: whenever the larger bound returns a chain
    (it raises [ValueError] otherwise, a value having reached 4301
    digits), the chain for the smaller bound is a prefix of it. *)
Theorem chain_bound_monotone (seed bound bound' : Z) chain found :
  bound <= bound' ->
  lychrel_tree.lychrel_chain seed bound = Ok (chain, found) ->
  (found = true ->
   lychrel_tree.lychrel_chain seed bound' = Ok (chain, true)) /\
  (forall chain' found',
     lychrel_tree.lychrel_chain seed bound' = Ok (chain', found') ->
     chain `prefix_of` chain') /\
  ((exists chain' found',
      lychrel_tree.lychrel_chain seed bound' = Ok (chain', found'))
   \/ lychrel_tree.lychrel_chain seed bound' = Raise ValueError).
Proof.
  intros Hb (-> & -> & Hr)%lychrel_chain_ok_inv. split; [|split].
  - intros Hf. unfold found_of in Hf.
    destruct (extend_length (Z.to_nat bound) seed) as [Hle _].
    assert (extend (Z.to_nat bound') seed = extend (Z.to_nat bound) seed)
      as Hsame by (apply extend_found_more; [done|lia]).
    rewrite (runs_true bound' seed).
    + unfold chain_of, found_of. by rewrite Hsame, Hf.
    + unfold runs in *. apply bool_decide_eq_true.
      apply bool_decide_eq_true in Hr as [Hm|Hr].
      * replace (Z.to_nat bound) with 0%nat in Hf by lia. done.
      * right. unfold chain_of in *. by rewrite Hsame.
  - intros chain' found' (-> & _ & _)%lychrel_chain_ok_inv.
    unfold chain_of. apply prefix_cons, extend_prefix. lia.
  - destruct (lychrel_chain_cases seed bound') as [[_ Hok]|[_ Hraise]];
      [left; eauto|by right].
Qed.

Lemma chain_bound_monotone_witness :
  3 <= 50 /\
  lychrel_tree.lychrel_chain 19 3 = Ok ([19; 110; 121], true) /\
  lychrel_tree.lychrel_chain 19 50 = Ok ([19; 110; 121], true).
Proof.
  assert (3 <= 50) as Hb by lia.
  assert (lychrel_tree.lychrel_chain 19 3 = Ok ([19; 110; 121], true)) as Hc
    by (vm_compute; reflexivity).
  split; [exact Hb|]. split; [exact Hc|].
  apply (proj1 (chain_bound_monotone 19 3 50 [19; 110; 121] true Hb Hc)).
  reflexivity.
Defined.

(** X6. The step count does not depend on the bound once the bound
    exceeds it: if [palindrome_iterations n b] is some [k < b], then
    [palindrome_iterations n b'] is [min k b'] for every bound [b']. *)
Theorem palindrome_iterations_bound (n b k b' : Z) :
  lychrel_graph.palindrome_iterations n b = k -> k < b ->
  lychrel_graph.palindrome_iterations n b' = Z.min k b'.
Proof.
  rewrite !palindrome_iterations_chain. unfold found_of, chain_of.
  simpl length.
  destruct (extend (Z.to_nat b) n).2 eqn:Hf; [|lia].
  intros Hk Hlt.
  destruct (Z.le_gt_cases k b') as [Hle|Hgt].
  - rewrite (extend_found_more (Z.to_nat b) n (Z.to_nat b')) by (done || lia).
    rewrite Hf. lia.
  - destruct (Z.le_gt_cases b' 0) as [Hb0|Hb0].
    { replace (Z.to_nat b') with 0%nat by lia. simpl. lia. }
    destruct (extend (Z.to_nat b') n).2 eqn:Hf'; [|lia].
    destruct (extend_length (Z.to_nat b') n) as [Hle' _].
    rewrite (extend_found_more (Z.to_nat b') n (Z.to_nat b)) in Hk
      by (done || lia).
    lia.
Qed.

Lemma palindrome_iterations_bound_witness :
  lychrel_graph.palindrome_iterations 89 30 = 24 /\ 24 < 30 /\
  lychrel_graph.palindrome_iterations 89 500 = Z.min 24 500.
Proof.
  assert (lychrel_graph.palindrome_iterations 89 30 = 24) as Hk
    by (vm_compute; reflexivity).
  assert (24 < 30) as Hlt by lia.
  split; [exact Hk|]. split; [exact Hlt|].
  apply (palindrome_iterations_bound 89 30 24 500 Hk Hlt).
Defined.

(** ** The series counter and its report *)

Section SeriesData.

Lemma lychrel_graph_save_closed start end_ max_iter :
  lychrel_graph.lychrel_graph_save start end_ max_iter
  = lychrel_graph.Series
      (range start (end_ + 1))
      ((fun n => lychrel_graph.palindrome_iterations n max_iter)
         <$> range start (end_ + 1))
      (filter (fun n => lychrel_graph.palindrome_iterations n max_iter
                        = max_iter)
              (range start (end_ + 1))).
Proof. unfold lychrel_graph.lychrel_graph_save. by rewrite foldl_series_step. Qed.

Lemma range_split a m b : a <= m <= b -> range a b = range a m ++ range m b.
Proof.
  intros H. unfold range.
  replace (b - a) with ((m - a) + (b - m)) by lia.
  rewrite seqZ_app by lia. do 2 f_equal; lia.
Qed.

Lemma seqZ_increasing m n : StronglySorted Z.lt (seqZ m n).
Proof.
  destruct (Z.le_gt_cases n 0) as [Hn|Hn]; [rewrite seqZ_nil by done; constructor|].
  revert m. pattern n. apply natlike_ind; [| |lia].
  - intros m. rewrite seqZ_nil by done. constructor.
  - intros k Hk IH m. rewrite seqZ_cons by lia.
    replace (Z.pred (Z.succ k)) with k by lia. constructor; [apply IH|].
    apply Forall_forall. intros x Hx%elem_of_seqZ. lia.
Qed.

Lemma filter_increasing (P : Z -> Prop) `{!forall x, Decision (P x)} l :
  StronglySorted Z.lt l -> StronglySorted Z.lt (filter P l).
Proof.
  induction 1 as [|x l Hl IH Hx]; [constructor|].
  rewrite filter_cons. case_decide; [|done]. constructor; [done|].
  apply Forall_forall. intros y [_ Hy]%list_elem_of_filter.
  rewrite Forall_forall in Hx. by apply Hx.
Qed.

Lemma differences_cons a b l :
  lychrel_graph.differences (a :: b :: l)
  = (b - a) :: lychrel_graph.differences (b :: l).
Proof.
  unfold lychrel_graph.differences. simpl length.
  replace (S (S (length l)) - 1)%nat with (S (length l)) by lia.
  replace (S (length l) - 1)%nat with (length l) by lia.
  cbn [seq fmap list_fmap]. f_equal.
  change (list_fmap ?A ?B ?f ?l) with (f <$> l).
  rewrite <- fmap_S_seq, <- list_fmap_compose. done.
Qed.

Lemma differences_increasing l :
  StronglySorted Z.lt l ->
  Forall (fun d => 1 <= d) (lychrel_graph.differences l) /\
  forall a l', l = a :: l' ->
    foldr Z.add 0 (lychrel_graph.differences l) = default a (last l') - a.
Proof.
  induction 1 as [|a l Hl IH Ha].
  - split; [constructor|done].
  - destruct l as [|b l'].
    + split; [constructor|]. intros ?? [= <- <-]. simpl. lia.
    + rewrite differences_cons. destruct IH as [IH1 IH2].
      inversion_clear Ha as [|?? Hab _]. split.
      * constructor; [lia|done].
      * intros ?? [= <- <-]. simpl foldr. rewrite (IH2 b l' eq_refl).
        rewrite last_cons. destruct (last l'); simpl; lia.
Qed.

End SeriesData.

(** X7. [lychrel_graph_save] lists the seeds of [[start, end]] in
    ascending order in [x_vals], puts the step count of [x_vals[i]] at
    [y_vals[i]], and collects in [no_palindrome_nums], in the same order,
    exactly the seeds whose step count equals [max_iter]. *)
Theorem series_rows (start end_ max_iter : Z) :
  lychrel_graph.x_vals (lychrel_graph.lychrel_graph_save start end_ max_iter)
  = seqZ start (end_ + 1 - start) /\
  length (lychrel_graph.y_vals
            (lychrel_graph.lychrel_graph_save start end_ max_iter))
  = length (lychrel_graph.x_vals
              (lychrel_graph.lychrel_graph_save start end_ max_iter)) /\
  (forall (i : nat) n,
     lychrel_graph.x_vals
       (lychrel_graph.lychrel_graph_save start end_ max_iter) !! i = Some n ->
     lychrel_graph.y_vals
       (lychrel_graph.lychrel_graph_save start end_ max_iter) !! i
     = Some (lychrel_graph.palindrome_iterations n max_iter)) /\
  lychrel_graph.no_palindrome_nums
    (lychrel_graph.lychrel_graph_save start end_ max_iter)
  = filter (fun n => lychrel_graph.palindrome_iterations n max_iter = max_iter)
           (lychrel_graph.x_vals
              (lychrel_graph.lychrel_graph_save start end_ max_iter)).
Proof.
  rewrite lychrel_graph_save_closed. simpl.
  split; [done|]. split; [apply length_fmap|]. split; [|done].
  intros i n Hi. by rewrite list_lookup_fmap, Hi.
Qed.

Lemma series_rows_witness :
  lychrel_graph.x_vals (lychrel_graph.lychrel_graph_save 1 9 5) !! 4%nat
  = Some 5 /\
  lychrel_graph.y_vals (lychrel_graph.lychrel_graph_save 1 9 5) !! 4%nat
  = Some (lychrel_graph.palindrome_iterations 5 5).
Proof.
  assert (lychrel_graph.x_vals (lychrel_graph.lychrel_graph_save 1 9 5)
            !! 4%nat = Some 5) as Hx by (vm_compute; reflexivity).
  split; [exact Hx|].
  apply (proj1 (proj2 (proj2 (series_rows 1 9 5))) 4%nat 5 Hx).
Defined.

(** X8. The numbers reported as not reaching a palindrome are in strictly
    increasing order and lie in [[start, end]]; hence every consecutive
    difference printed for them is at least [1], and the differences add
    up to the last such number minus the first. *)
Theorem differences_positive (start end_ max_iter : Z) :
  StronglySorted Z.lt
    (lychrel_graph.no_palindrome_nums
       (lychrel_graph.lychrel_graph_save start end_ max_iter)) /\
  Forall (fun n => start <= n <= end_)
    (lychrel_graph.no_palindrome_nums
       (lychrel_graph.lychrel_graph_save start end_ max_iter)) /\
  Forall (fun d => 1 <= d)
    (lychrel_graph.differences
       (lychrel_graph.no_palindrome_nums
          (lychrel_graph.lychrel_graph_save start end_ max_iter))) /\
  forall a l',
    lychrel_graph.no_palindrome_nums
      (lychrel_graph.lychrel_graph_save start end_ max_iter) = a :: l' ->
    foldr Z.add 0
      (lychrel_graph.differences
         (lychrel_graph.no_palindrome_nums
            (lychrel_graph.lychrel_graph_save start end_ max_iter)))
    = default a (last l') - a.
Proof.
  set (l := lychrel_graph.no_palindrome_nums
              (lychrel_graph.lychrel_graph_save start end_ max_iter)).
  assert (StronglySorted Z.lt l) as Hs.
  { unfold l. rewrite lychrel_graph_save_closed. simpl.
    apply filter_increasing, seqZ_increasing. }
  split; [done|]. split; [|by apply differences_increasing].
  apply Forall_forall. intros n Hn. apply flagged_iff in Hn. tauto.
Qed.

Lemma differences_positive_witness :
  lychrel_graph.no_palindrome_nums (lychrel_graph.lychrel_graph_save 190 200 5)
  = 190 :: [193; 196; 197; 198] /\
  foldr Z.add 0
    (lychrel_graph.differences
       (lychrel_graph.no_palindrome_nums
          (lychrel_graph.lychrel_graph_save 190 200 5)))
  = default 190 (last [193; 196; 197; 198]) - 190.
Proof.
  assert (lychrel_graph.no_palindrome_nums
            (lychrel_graph.lychrel_graph_save 190 200 5)
          = 190 :: [193; 196; 197; 198]) as Hl
    by (vm_compute; reflexivity).
  split; [exact Hl|].
  apply (proj2 (proj2 (proj2 (differences_positive 190 200 5)))
           190 [193; 196; 197; 198] Hl).
Defined.

(** X9. Counting over two adjacent ranges and concatenating the three
    result lists gives the count over the whole range. *)
Theorem series_concat (start mid end_ max_iter : Z) :
  start <= mid + 1 -> mid <= end_ ->
  let s1 := lychrel_graph.lychrel_graph_save start mid max_iter in
  let s2 := lychrel_graph.lychrel_graph_save (mid + 1) end_ max_iter in
  lychrel_graph.lychrel_graph_save start end_ max_iter
  = lychrel_graph.Series
      (lychrel_graph.x_vals s1 ++ lychrel_graph.x_vals s2)
      (lychrel_graph.y_vals s1 ++ lychrel_graph.y_vals s2)
      (lychrel_graph.no_palindrome_nums s1
         ++ lychrel_graph.no_palindrome_nums s2).
Proof.
  intros H1 H2 s1 s2. unfold s1, s2. rewrite !lychrel_graph_save_closed.
  simpl. rewrite (range_split start (mid + 1) (end_ + 1)) by lia.
  by rewrite fmap_app, filter_app.
Qed.

Lemma series_concat_witness :
  1 <= 4 + 1 /\ 4 <= 9 /\
  lychrel_graph.lychrel_graph_save 1 9 5
  = lychrel_graph.Series
      (lychrel_graph.x_vals (lychrel_graph.lychrel_graph_save 1 4 5)
         ++ lychrel_graph.x_vals (lychrel_graph.lychrel_graph_save (4 + 1) 9 5))
      (lychrel_graph.y_vals (lychrel_graph.lychrel_graph_save 1 4 5)
         ++ lychrel_graph.y_vals (lychrel_graph.lychrel_graph_save (4 + 1) 9 5))
      (lychrel_graph.no_palindrome_nums
         (lychrel_graph.lychrel_graph_save 1 4 5)
         ++ lychrel_graph.no_palindrome_nums
              (lychrel_graph.lychrel_graph_save (4 + 1) 9 5)).
Proof.
  assert (1 <= 4 + 1) as H1 by lia. assert (4 <= 9) as H2 by lia.
  split; [exact H1|]. split; [exact H2|].
  apply (series_concat 1 4 9 5 H1 H2).
Defined.

(** X10. For [max_iter >= 1], the series counter with bound [max_iter]
    flags exactly the seeds that the graph builder flags with bound
    [max_iter - 1], whenever the builder returns a graph: a step count
    equal to the bound means that no palindrome came up in the first
    [max_iter - 1] steps.  The builder returns for seeds [>= 0] below
    [10 ^ (4301 - max_iter)], no chain reaching 4301 digits then. *)
Theorem series_flags_one_step_less (start end_ max_iter : Z) :
  1 <= max_iter ->
  (0 <= start -> end_ < 10 ^ (4301 - max_iter) ->
   exists g,
     lychrel_tree.build_lychrel_graph start end_ (max_iter - 1) = Ok g) /\
  forall g,
    lychrel_tree.build_lychrel_graph start end_ (max_iter - 1) = Ok g ->
    forall n,
      n ∈ lychrel_graph.no_palindrome_nums
            (lychrel_graph.lychrel_graph_save start end_ max_iter)
      <-> n ∈ lychrel_tree.lychrel_seeds g.
Proof.
  intros Hm. split.
  { intros Hs He. eexists. apply build_returns. left. split; [done|].
    by replace (4300 - (max_iter - 1)) with (4301 - max_iter) by lia. }
  intros g [-> _]%build_ok_inv n.
  rewrite flagged_iff, graph_of_seeds, elem_of_range.
  rewrite palindrome_iterations_chain. unfold found_of, chain_of.
  simpl length.
  replace (Z.to_nat max_iter) with (S (Z.to_nat (max_iter - 1))) by lia.
  set (k := Z.to_nat (max_iter - 1)).
  rewrite (extend_exhausted_succ k n).
  destruct (extend_length (S k) n) as [Hle _].
  destruct (extend (S k) n).2; split; intros [Hr H]; (split; [lia|]).
  - right. lia.
  - destruct H as [|H]; [done|lia].
  - by left.
  - lia.
Qed.

Lemma series_flags_one_step_less_witness :
  1 <= 24 /\
  exists g,
    lychrel_tree.build_lychrel_graph 80 90 (24 - 1) = Ok g /\
    forall n,
      n ∈ lychrel_graph.no_palindrome_nums
            (lychrel_graph.lychrel_graph_save 80 90 24)
      <-> n ∈ lychrel_tree.lychrel_seeds g.
Proof.
  assert (1 <= 24) as Hm by lia.
  split; [exact Hm|].
  destruct (series_flags_one_step_less 80 90 24 Hm) as [Hret Hflags].
  destruct (Hret ltac:(lia) ltac:(done)) as [g Hg].
  exists g. split; [exact Hg|]. exact (Hflags g Hg).
Defined.

(** X11. The graph builder flags a seed exactly when [lychrel_chain]
    returned its chain with [found_pal = False]; every seed it flags is
    also flagged by the series counter run with the same bound. *)
Theorem tree_flags_exhausted (start end_ max_iter : Z) g n :
  lychrel_tree.build_lychrel_graph start end_ max_iter = Ok g ->
  (n ∈ lychrel_tree.lychrel_seeds g <->
   start <= n <= end_ /\
   exists chain, lychrel_tree.lychrel_chain n max_iter = Ok (chain, false)) /\
  (n ∈ lychrel_tree.lychrel_seeds g ->
   n ∈ lychrel_graph.no_palindrome_nums
         (lychrel_graph.lychrel_graph_save start end_ max_iter)).
Proof.
  intros [-> Hchains]%build_ok_inv.
  rewrite graph_of_seeds, elem_of_range. split.
  - split.
    + intros [Hn Hf]. split; [lia|]. exists (chain_of n max_iter).
      rewrite Hchains by lia. by rewrite Hf.
    + intros [Hn [chain Hc]]. split; [lia|].
      rewrite Hchains in Hc by lia. by injection Hc as _ ->.
  - intros [Hn Hf]. apply flagged_iff. split; [lia|].
    by rewrite palindrome_iterations_chain, Hf.
Qed.

Lemma tree_flags_exhausted_witness :
  lychrel_tree.build_lychrel_graph 195 197 5 = Ok (graph_of 5 [195; 196; 197])
  /\
  (196 ∈ lychrel_tree.lychrel_seeds (graph_of 5 [195; 196; 197]) <->
   195 <= 196 <= 197 /\
   exists chain, lychrel_tree.lychrel_chain 196 5 = Ok (chain, false)) /\
  (196 ∈ lychrel_tree.lychrel_seeds (graph_of 5 [195; 196; 197]) ->
   196 ∈ lychrel_graph.no_palindrome_nums
           (lychrel_graph.lychrel_graph_save 195 197 5)).
Proof.
  assert (lychrel_tree.build_lychrel_graph 195 197 5
          = Ok (graph_of 5 [195; 196; 197])) as Hb
    by (vm_compute; reflexivity).
  split; [exact Hb|].
  apply (tree_flags_exhausted 195 197 5 (graph_of 5 [195; 196; 197]) 196 Hb).
Defined.

(** ** The shape of the graph *)

Section Shape.

Implicit Types (g : lychrel_tree.graph) (u v : Z).

Lemma follows_chain_of n max_iter u v :
  follows (chain_of n max_iter) u v ->
  v = step u /\ 0 <= n /\ 0 <= u /\ 1 <= max_iter \/
  v = step u /\ n < 0 /\ 1 <= max_iter.
Proof.
  intros (i & Hu & Hv). pose proof (chain_of_step _ _ _ _ _ Hu Hv) as ->.
  assert (1 <= max_iter) as Hb.
  { destruct (Z.le_gt_cases max_iter 0); [|lia].
    unfold chain_of in Hv. replace (Z.to_nat max_iter) with 0%nat in Hv by lia.
    by destruct i. }
  destruct (Z.le_gt_cases 0 n) as [Hn|Hn]; [left|right; split; [done|lia]].
  split; [done|]. split; [done|]. split; [|done].
  unfold chain_of in Hu. destruct i as [|i]; simpl in Hu; [congruence|].
  pose proof (extend_nonneg (Z.to_nat max_iter) n Hn) as Hall.
  rewrite Forall_forall in Hall. apply Hall, list_elem_of_lookup. eauto.
Qed.

Lemma occurs_iff start end_ max_iter (m : nat) u :
  (forall n, start <= n <= end_ ->
     lychrel_tree.lychrel_chain n max_iter
     = Ok (chain_of n max_iter, found_of n max_iter)) ->
  (exists n, n ∈ range start (end_ + 1) /\ chain_of n max_iter !! m = Some u)
  <-> exists c f, generated start end_ max_iter c f /\ c !! m = Some u.
Proof.
  intros Hchains. split.
  - intros (n & Hn%elem_of_range & Hm).
    exists (chain_of n max_iter), (found_of n max_iter). split; [|done].
    exists n. split; [lia|]. apply Hchains. lia.
  - intros (c & f & (n & Hn & Hc) & Hm). exists n.
    rewrite Hchains in Hc by done. injection Hc as <- <-.
    split; [apply elem_of_range; lia|done].
Qed.

Lemma forallb_same_elements {A} (f : A -> bool) (l1 l2 : list A) :
  (forall x, x ∈ l1 <-> x ∈ l2) -> forallb f l1 = forallb f l2.
Proof.
  intros Hsame.
  destruct (forallb f l1) eqn:H1, (forallb f l2) eqn:H2; try done.
  - rewrite forallb_forall in H1. apply not_true_iff_false in H2.
    destruct H2. apply forallb_forall. intros x Hx. apply H1.
    by apply list_elem_of_In, Hsame, list_elem_of_In.
  - rewrite forallb_forall in H2. apply not_true_iff_false in H1.
    destruct H1. apply forallb_forall. intros x Hx. apply H2.
    by apply list_elem_of_In, Hsame, list_elem_of_In.
Qed.

(** A seed that is processed a second time adds nothing. *)
Lemma graph_of_repeat max_iter n seeds :
  n ∈ seeds -> graph_of max_iter (n :: seeds) = graph_of max_iter seeds.
Proof.
  intros (l1 & l2 & ->)%list_elem_of_split.
  rewrite graph_of_cons.
  rewrite (graph_of_perm max_iter (l1 ++ n :: l2) (n :: l1 ++ l2))
    by (by rewrite Permutation_middle).
  by rewrite graph_of_cons, merge_assoc, merge_idemp.
Qed.

Lemma graph_of_remove_dups max_iter seeds :
  graph_of max_iter (remove_dups seeds) = graph_of max_iter seeds.
Proof.
  induction seeds as [|n seeds IH]; [done|]. simpl remove_dups.
  case_decide as Hn.
  - by rewrite IH, graph_of_repeat.
  - by rewrite !graph_of_cons, IH.
Qed.

Lemma build_over_same_elements max_iter seeds1 seeds2 :
  (forall n, n ∈ seeds1 <-> n ∈ seeds2) ->
  build_over max_iter seeds1 = build_over max_iter seeds2.
Proof.
  intros Hsame. rewrite !build_over_closed.
  rewrite (forallb_same_elements _ _ _ Hsame).
  rewrite <- (graph_of_remove_dups _ seeds1), <- (graph_of_remove_dups _ seeds2).
  rewrite (graph_of_perm _ (remove_dups seeds1) (remove_dups seeds2)); [done|].
  apply NoDup_Permutation; [apply NoDup_remove_dups..|].
  intros n. by rewrite !elem_of_remove_dups.
Qed.

Lemma extend_same_step k x y : step x = step y -> extend k x = extend k y.
Proof. intros H. destruct k as [|k]; [done|]. simpl. by rewrite H. Qed.

End Shape.

(** X12. The adjacency that [build_lychrel_graph] returns is functional:
    the target set of every key [u] is the single value
    [u + reverse_int u].  Keys are never negative, and a key [u >= 1]
    points to a strictly larger value, so the only possible cycle is the
    loop at [0]. *)
Theorem adjacency_is_functional (start end_ bound : Z) g u targets :
  lychrel_tree.build_lychrel_graph start end_ bound = Ok g ->
  lychrel_tree.adjacency g !! u = Some targets ->
  targets = {[ u + lychrel_graph.reverse_int u ]} /\
  0 <= u /\
  (1 <= u -> u < u + lychrel_graph.reverse_int u).
Proof.
  intros [-> Hchains]%build_ok_inv Hu.
  assert (forall w, w ∈ targets -> w = step u /\ 0 <= u) as Hall.
  { intros w Hw.
    assert (has_edge (lychrel_tree.adjacency
                        (graph_of bound (range start (end_ + 1)))) u w)
      as (n & Hn%elem_of_range & Hf)%graph_of_edges by (by exists targets).
    destruct (follows_chain_of _ _ _ _ Hf) as [(?&?&?&?)|(?&?&?)]; [done|].
    specialize (Hchains n ltac:(lia)).
    rewrite lychrel_chain_negative in Hchains by done. done. }
  destruct (graph_of_keys bound (range start (end_ + 1)) u) as (v & s & Hs & Hv);
    [by rewrite Hu|].
  rewrite Hu in Hs. injection Hs as <-.
  destruct (Hall v Hv) as [Hstep H0]. split; [|split; [done|]].
  - apply set_eq. intros w. rewrite elem_of_singleton. split.
    + intros Hw. by destruct (Hall w Hw).
    + intros ->. fold (step u). by rewrite <- Hstep.
  - intros H1. by apply reverse_int_pos_step.
Qed.

Lemma adjacency_is_functional_witness :
  lychrel_tree.build_lychrel_graph 5 6 2 = Ok (graph_of 2 [5; 6]) /\
  lychrel_tree.adjacency (graph_of 2 [5; 6]) !! 10 = Some {[11]} /\
  ({[11]} : gset Z) = {[ 10 + lychrel_graph.reverse_int 10 ]} /\
  0 <= 10 /\
  (1 <= 10 -> 10 < 10 + lychrel_graph.reverse_int 10).
Proof.
  assert (lychrel_tree.build_lychrel_graph 5 6 2 = Ok (graph_of 2 [5; 6]))
    as Hb by (vm_compute; reflexivity).
  assert (lychrel_tree.adjacency (graph_of 2 [5; 6]) !! 10 = Some {[11]})
    as Hu by (vm_compute; reflexivity).
  split; [exact Hb|]. split; [exact Hu|].
  apply (adjacency_is_functional 5 6 2 (graph_of 2 [5; 6]) 10 {[11]} Hb Hu).
Defined.

(** X13. In the returned graph the level of a node is the least index at
    which the node occurs in the chain of any seed of the range; a node
    has a level exactly when it occurs in such a chain, and no level
    exceeds the bound. *)
Theorem level_is_least_index (start end_ bound : Z) g u :
  lychrel_tree.build_lychrel_graph start end_ bound = Ok g ->
  (forall l : nat,
     lychrel_tree.level_of g !! u = Some l <->
     (exists c f, generated start end_ bound c f /\ c !! l = Some u) /\
     (forall c f (j : nat),
        generated start end_ bound c f -> c !! j = Some u -> (l <= j)%nat)) /\
  (is_Some (lychrel_tree.level_of g !! u) <->
   exists c f (j : nat), generated start end_ bound c f /\ c !! j = Some u) /\
  (forall l : nat,
     lychrel_tree.level_of g !! u = Some l -> (l <= Z.to_nat bound)%nat).
Proof.
  intros [-> Hchains]%build_ok_inv.
  pose proof (graph_of_levels bound (range start (end_ + 1)) u) as Hmin.
  pose proof (fun m => occurs_iff start end_ bound m u Hchains) as Hocc.
  assert (forall l : nat,
            lychrel_tree.level_of
              (graph_of bound (range start (end_ + 1))) !! u = Some l ->
            (exists c f, generated start end_ bound c f /\ c !! l = Some u) /\
            (forall c f (j : nat),
               generated start end_ bound c f -> c !! j = Some u ->
               (l <= j)%nat)) as Hfwd.
  { intros l Hl. rewrite Hl in Hmin. destruct Hmin as [Hp Hle]. split.
    - by apply Hocc.
    - intros c f j Hg Hj. apply Hle, Hocc. eauto. }
  split; [|split].
  - intros l. split; [apply Hfwd|]. intros [Hex Hle].
    apply Hocc in Hex as (n & Hn & Hu).
    destruct (level_present _ _ _ _ _ Hn Hu) as (m & Hm & Hml).
    destruct (Hfwd m Hm) as [(c & f & Hg & Hc) _].
    specialize (Hle c f m Hg Hc). rewrite Hm. f_equal. lia.
  - split.
    + intros [l Hl]. destruct (Hfwd l Hl) as [(c & f & ? & ?) _]. eauto.
    + intros (c & f & j & Hg & Hj).
      assert (exists n, n ∈ range start (end_ + 1) /\
                        chain_of n bound !! j = Some u)
        as (n & Hn & Hu) by (apply Hocc; eauto).
      destruct (level_present _ _ _ _ _ Hn Hu) as (m & Hm & _). eauto.
  - intros l Hl. rewrite Hl in Hmin. destruct Hmin as [(n & _ & Hu) _].
    apply lookup_lt_Some in Hu. unfold chain_of in Hu. simpl in Hu.
    destruct (extend_length (Z.to_nat bound) n). lia.
Qed.

Lemma level_is_least_index_witness :
  lychrel_tree.build_lychrel_graph 5 6 2 = Ok (graph_of 2 [5; 6]) /\
  (forall l : nat,
     lychrel_tree.level_of (graph_of 2 [5; 6]) !! 11 = Some l <->
     (exists c f, generated 5 6 2 c f /\ c !! l = Some 11) /\
     (forall c f (j : nat),
        generated 5 6 2 c f -> c !! j = Some 11 -> (l <= j)%nat)) /\
  (is_Some (lychrel_tree.level_of (graph_of 2 [5; 6]) !! 11) <->
   exists c f (j : nat), generated 5 6 2 c f /\ c !! j = Some 11) /\
  (forall l : nat,
     lychrel_tree.level_of (graph_of 2 [5; 6]) !! 11 = Some l ->
     (l <= Z.to_nat 2)%nat).
Proof.
  assert (lychrel_tree.build_lychrel_graph 5 6 2 = Ok (graph_of 2 [5; 6]))
    as Hb by (vm_compute; reflexivity).
  split; [exact Hb|].
  apply (level_is_least_index 5 6 2 (graph_of 2 [5; 6]) 11 Hb).
Defined.

(** X14. The nodes at level [0] are exactly the seeds of the range. *)
Theorem level_zero_is_seed (start end_ bound : Z) g u :
  lychrel_tree.build_lychrel_graph start end_ bound = Ok g ->
  (lychrel_tree.level_of g !! u = Some 0%nat <-> start <= u <= end_).
Proof.
  intros [-> Hchains]%build_ok_inv. split.
  - intros Hl.
    pose proof (graph_of_levels bound (range start (end_ + 1)) u) as Hmin.
    rewrite Hl in Hmin. destruct Hmin as [(n & Hn%elem_of_range & Hu) _].
    injection Hu as ->. lia.
  - intros Hu.
    destruct (level_present bound (range start (end_ + 1)) u 0 u)
      as (m & Hm & Hle); [apply elem_of_range; lia|done|].
    rewrite Hm. f_equal. lia.
Qed.

Lemma level_zero_is_seed_witness :
  lychrel_tree.build_lychrel_graph 5 6 2 = Ok (graph_of 2 [5; 6]) /\
  (lychrel_tree.level_of (graph_of 2 [5; 6]) !! 6 = Some 0%nat <->
   5 <= 6 <= 6).
Proof.
  assert (lychrel_tree.build_lychrel_graph 5 6 2 = Ok (graph_of 2 [5; 6]))
    as Hb by (vm_compute; reflexivity).
  split; [exact Hb|].
  apply (level_zero_is_seed 5 6 2 (graph_of 2 [5; 6]) 6 Hb).
Defined.

(** X15. Sub-ranges that overlap may be merged as well: if the sub-ranges
    together hold exactly the seeds of [[s, e]], possibly more than once,
    merging the graphs built over them gives the graph built over
    [[s, e]]. *)
Theorem build_is_a_merge_of_covers (s e bound : Z) (parts : list (Z * Z)) :
  (forall n, n ∈ concat ((fun p => range p.1 (p.2 + 1)) <$> parts)
             <-> s <= n <= e) ->
  merge_all ((fun p => lychrel_tree.build_lychrel_graph p.1 p.2 bound)
               <$> parts)
  = lychrel_tree.build_lychrel_graph s e bound.
Proof.
  intros Hcover. rewrite build_lychrel_graph_over.
  rewrite <- (build_over_same_elements bound
                (concat ((fun p => range p.1 (p.2 + 1)) <$> parts))).
  - rewrite <- merge_all_build_over. by rewrite <- list_fmap_compose.
  - intros n. rewrite Hcover, elem_of_range. lia.
Qed.

Lemma build_is_a_merge_of_covers_witness :
  (forall n, n ∈ concat ((fun p => range p.1 (p.2 + 1)) <$> [(5, 7); (6, 9)])
             <-> 5 <= n <= 9) /\
  merge_all ((fun p => lychrel_tree.build_lychrel_graph p.1 p.2 3)
               <$> [(5, 7); (6, 9)])
  = lychrel_tree.build_lychrel_graph 5 9 3.
Proof.
  assert (forall n,
            n ∈ concat ((fun p => range p.1 (p.2 + 1)) <$> [(5, 7); (6, 9)])
            <-> 5 <= n <= 9) as Hcover.
  { intros n. change (n ∈ range 5 (7 + 1) ++ range 6 (9 + 1) ++ [] <-> 5 <= n <= 9).
    rewrite !elem_of_app, !elem_of_range, elem_of_nil. lia. }
  split; [exact Hcover|].
  apply (build_is_a_merge_of_covers 5 9 3 [(5, 7); (6, 9)] Hcover).
Defined.

(** X16. A number [n >= 0] without a trailing zero and its reversal have
    the same successor, so their chains coincide after the seed: they
    get the same status and the same step count. *)
Theorem reversed_seed_same_chain (n bound : Z) chain found :
  0 <= n -> n mod 10 <> 0 ->
  lychrel_tree.lychrel_chain n bound = Ok (chain, found) ->
  lychrel_tree.lychrel_chain (lychrel_graph.reverse_int n) bound
  = Ok (lychrel_graph.reverse_int n :: tail chain, found) /\
  lychrel_graph.palindrome_iterations (lychrel_graph.reverse_int n) bound
  = lychrel_graph.palindrome_iterations n bound.
Proof.
  intros Hn Hlast (-> & -> & Hr)%lychrel_chain_ok_inv.
  assert (step (lychrel_graph.reverse_int n) = step n) as Hstep.
  { unfold step.
    rewrite reverse_int_twice by done. lia. }
  split.
  - rewrite (runs_true bound (lychrel_graph.reverse_int n)).
    + unfold chain_of, found_of.
      by rewrite (extend_same_step _ _ _ Hstep).
    + unfold runs in *. apply bool_decide_eq_true.
      apply bool_decide_eq_true in Hr as [Hm|[_ Hall]]; [by left|right].
      split; [apply reverse_int_nonneg|].
      unfold chain_of in *. rewrite (extend_same_step _ _ _ Hstep).
      apply Forall_cons in Hall as [Hlim Hall]. constructor; [|done].
      unfold str_limit in *. apply reverse_int_lt_pow; [lia|done].
  - rewrite !palindrome_iterations_chain. unfold chain_of, found_of.
    by rewrite (extend_same_step _ _ _ Hstep).
Qed.

Lemma reversed_seed_same_chain_witness :
  0 <= 19 /\ 19 mod 10 <> 0 /\
  lychrel_tree.lychrel_chain 19 3 = Ok ([19; 110; 121], true) /\
  lychrel_tree.lychrel_chain (lychrel_graph.reverse_int 19) 3
  = Ok (lychrel_graph.reverse_int 19 :: tail [19; 110; 121], true) /\
  lychrel_graph.palindrome_iterations (lychrel_graph.reverse_int 19) 3
  = lychrel_graph.palindrome_iterations 19 3.
Proof.
  assert (0 <= 19) as Hn by lia.
  assert (19 mod 10 <> 0) as Hl by done.
  assert (lychrel_tree.lychrel_chain 19 3 = Ok ([19; 110; 121], true)) as Hc
    by (vm_compute; reflexivity).
  split; [exact Hn|]. split; [exact Hl|]. split; [exact Hc|].
  apply (reversed_seed_same_chain 19 3 [19; 110; 121] true Hn Hl Hc).
Defined.

(** ** The layout *)

Section Layout.

Implicit Types (level_of : gmap Z nat) (pos : gmap Z (Q * Z)).

Lemma foldl_group_step (items : list (Z * nat)) : forall acc lvl,
  foldl lychrel_tree_plot.group_step acc items !! lvl
  = match (filter (fun p => p.2 = lvl) items).*1 with
    | [] => acc !! lvl
    | r => Some (default [] (acc !! lvl) ++ r)
    end.
Proof.
  induction items as [|[node l] items IH]; intros acc lvl; [done|].
  cbn [foldl lychrel_tree_plot.group_step]. rewrite IH, filter_cons.
  destruct (decide (l = lvl)) as [->|Hne].
  - rewrite decide_True by done. rewrite fmap_cons, lookup_insert_eq.
    cbn [default fst from_option id].
    destruct ((filter (fun p => p.2 = lvl) items).*1) as [|n r]; [done|].
    by rewrite <- app_assoc.
  - rewrite decide_False by done. by rewrite lookup_insert_ne.
Qed.

Lemma nodes_by_level_total level_of lvl :
  lychrel_tree_plot.nodes_by_level level_of !!! lvl
  = (filter (fun p => p.2 = lvl) (map_to_list level_of)).*1.
Proof.
  unfold lychrel_tree_plot.nodes_by_level.
  rewrite lookup_total_alt, foldl_group_step, lookup_empty.
  by destruct ((filter _ _).*1).
Qed.

Lemma nodes_by_level_key level_of lvl :
  is_Some (lychrel_tree_plot.nodes_by_level level_of !! lvl)
  <-> lychrel_tree_plot.nodes_by_level level_of !!! lvl <> [].
Proof.
  rewrite nodes_by_level_total. unfold lychrel_tree_plot.nodes_by_level.
  rewrite foldl_group_step, lookup_empty.
  destruct ((filter _ _).*1); split; try done.
Qed.

Lemma NoDup_filter_fst {A B} (P : A * B -> Prop) `{!forall x, Decision (P x)}
    (l : list (A * B)) :
  NoDup l.*1 -> NoDup (filter P l).*1.
Proof.
  induction l as [|[a b] l IH]; [done|]. rewrite fmap_cons, NoDup_cons.
  intros [Ha Hl]. rewrite filter_cons. case_decide; [|by apply IH].
  rewrite fmap_cons, NoDup_cons. split; [|by apply IH].
  intros (x & Hx & [_ Hin]%list_elem_of_filter)%list_elem_of_fmap.
  apply Ha. apply list_elem_of_fmap. eauto.
Qed.

Lemma elem_of_sorted_row level_of lvl node :
  node ∈ sorted_row level_of lvl <-> level_of !! node = Some lvl.
Proof.
  unfold sorted_row. rewrite merge_sort_Permutation, nodes_by_level_total.
  rewrite list_elem_of_fmap. split.
  - intros ([n l] & -> & [Hl Hin]%list_elem_of_filter). simpl in *. subst.
    by apply elem_of_map_to_list.
  - intros Hl. exists (node, lvl). split; [done|].
    apply list_elem_of_filter. split; [done|]. by apply elem_of_map_to_list.
Qed.

Lemma NoDup_sorted_row level_of lvl : NoDup (sorted_row level_of lvl).
Proof.
  unfold sorted_row. rewrite merge_sort_Permutation, nodes_by_level_total.
  apply NoDup_filter_fst, NoDup_fst_map_to_list.
Qed.

Lemma StronglySorted_lookup_le (l : list Z) : forall (i j : nat) a b,
  StronglySorted Z.le l -> l !! i = Some a -> l !! j = Some b ->
  (i < j)%nat -> a <= b.
Proof.
  induction l as [|x l IH]; intros i j a b Hs Hi Hj Hij; [done|].
  apply StronglySorted_inv in Hs as [Hs Hx].
  destruct j as [|j]; [lia|]. destruct i as [|i]; simpl in *.
  - injection Hi as <-. rewrite Forall_forall in Hx.
    apply Hx, list_elem_of_lookup. eauto.
  - apply (IH i j); [done..|lia].
Qed.

(** A row lists its nodes in strictly increasing order. *)
Lemma sorted_row_increasing level_of lvl (i j : nat) a b :
  sorted_row level_of lvl !! i = Some a ->
  sorted_row level_of lvl !! j = Some b ->
  (i < j)%nat -> a < b.
Proof.
  intros Hi Hj Hij.
  assert (a <= b).
  { apply (StronglySorted_lookup_le (sorted_row level_of lvl) i j);
      [|done..].
    unfold sorted_row. apply StronglySorted_merge_sort; apply _. }
  assert (a <> b); [|lia]. intros ->.
  pose proof (NoDup_lookup _ _ _ _ (NoDup_sorted_row level_of lvl) Hi Hj).
  lia.
Qed.

Lemma foldl_place_out lvl count (row : list Z) : forall pos node,
  node ∉ row ->
  foldl (lychrel_tree_plot.place lvl count) pos (enumerate row) !! node
  = pos !! node.
Proof.
  unfold enumerate.
  induction row as [|x row IH] using rev_ind; intros pos node Hn; [done|].
  rewrite imap_app, foldl_app. simpl.
  rewrite not_elem_of_app, not_elem_of_cons in Hn.
  destruct Hn as [Hn [Hx _]].
  rewrite lookup_insert_ne by done. by apply IH.
Qed.

Lemma foldl_place_in lvl count (row : list Z) : forall pos (i : nat) node,
  NoDup row -> row !! i = Some node ->
  foldl (lychrel_tree_plot.place lvl count) pos (enumerate row) !! node
  = Some ((inject_Z (Z.of_nat i) - inject_Z (Z.of_nat count) / 2)%Q,
          - Z.of_nat lvl).
Proof.
  unfold enumerate.
  induction row as [|x row IH] using rev_ind; intros pos i node Hd Hi;
    [done|].
  rewrite imap_app, foldl_app. simpl.
  apply NoDup_app in Hd as (Hd & Hx & _).
  apply lookup_app_Some in Hi as [Hi|[Hlen Hi]].
  - assert (node <> x).
    { intros ->. apply (Hx x); [|by left].
      apply list_elem_of_lookup. eauto. }
    rewrite lookup_insert_ne by done. by apply IH.
  - destruct (i - length row)%nat as [|k] eqn:Hk; [|by destruct k].
    injection Hi as ->.
    replace (length row + 0)%nat with i by lia.
    by rewrite lookup_insert_eq.
Qed.

Lemma foldl_place_row level_of (levels : list nat) node v :
  foldl (lychrel_tree_plot.place_row
           (lychrel_tree_plot.nodes_by_level level_of)) ∅ levels !! node
  = Some v
  <-> exists lvl (i : nat),
        lvl ∈ levels /\ sorted_row level_of lvl !! i = Some node /\
        v = ((inject_Z (Z.of_nat i)
              - inject_Z (Z.of_nat (length (sorted_row level_of lvl))) / 2)%Q,
             - Z.of_nat lvl).
Proof.
  induction levels as [|lvl levels IH] using rev_ind.
  - simpl. rewrite lookup_empty. split; [done|].
    intros (? & ? & []%elem_of_nil & _).
  - rewrite foldl_app. simpl. unfold lychrel_tree_plot.place_row.
    fold (sorted_row level_of lvl).
    destruct (decide (node ∈ sorted_row level_of lvl)) as [Hin|Hout].
    + apply list_elem_of_lookup in Hin as Hi. destruct Hi as [i Hi].
      rewrite (foldl_place_in _ _ _ _ i node (NoDup_sorted_row _ _) Hi).
      split.
      * intros [= <-]. exists lvl, i. split; [|done].
        apply elem_of_app. right. by left.
      * intros (lvl' & i' & _ & Hi' & ->).
        assert (lvl' = lvl) as ->.
        { apply elem_of_sorted_row in Hin.
          assert (node ∈ sorted_row level_of lvl') as Hin'
            by (apply list_elem_of_lookup; eauto).
          apply elem_of_sorted_row in Hin'. congruence. }
        by rewrite (NoDup_lookup _ _ _ _ (NoDup_sorted_row _ _) Hi Hi').
    + rewrite foldl_place_out by done. rewrite IH. split.
      * intros (lvl' & i' & Hl & Hi' & ->). exists lvl', i'.
        split; [|done]. apply elem_of_app. by left.
      * intros (lvl' & i' & [Hl|Hl%list_elem_of_singleton]%elem_of_app
                & Hi' & ->).
        -- by exists lvl', i'.
        -- subst. destruct Hout. apply list_elem_of_lookup. eauto.
Qed.

Lemma elem_of_all_levels level_of lvl :
  lvl ∈ lychrel_tree_plot.all_levels
          (lychrel_tree_plot.nodes_by_level level_of)
  <-> sorted_row level_of lvl <> [].
Proof.
  unfold lychrel_tree_plot.all_levels. rewrite merge_sort_Permutation.
  rewrite list_elem_of_fmap.
  assert (sorted_row level_of lvl <> []
          <-> lychrel_tree_plot.nodes_by_level level_of !!! lvl <> [])
    as ->.
  { unfold sorted_row.
    pose proof (merge_sort_Permutation Z.le
                  (lychrel_tree_plot.nodes_by_level level_of !!! lvl)) as Hp.
    apply Permutation_length in Hp.
    split; intros Hne Heq; apply Hne; apply nil_length_inv.
    - by rewrite Hp, Heq.
    - by rewrite <- Hp, Heq. }
  rewrite <- nodes_by_level_key. split.
  - intros ([l row] & -> & Hin%elem_of_map_to_list). eauto.
  - intros [row Hrow]. exists (lvl, row). split; [done|].
    by apply elem_of_map_to_list.
Qed.

(** The position of a node: its rank in the sorted row of its level. *)
Lemma positions_lookup level_of node v :
  lychrel_tree_plot.positions level_of !! node = Some v
  <-> exists lvl (i : nat),
        level_of !! node = Some lvl /\
        sorted_row level_of lvl !! i = Some node /\
        v = ((inject_Z (Z.of_nat i)
              - inject_Z (Z.of_nat (length (sorted_row level_of lvl))) / 2)%Q,
             - Z.of_nat lvl).
Proof.
  unfold lychrel_tree_plot.positions. cbv zeta. rewrite foldl_place_row.
  split.
  - intros (lvl & i & _ & Hi & ->). exists lvl, i. split; [|done].
    apply elem_of_sorted_row, list_elem_of_lookup. eauto.
  - intros (lvl & i & _ & Hi & ->). exists lvl, i. split; [|done].
    apply elem_of_all_levels. by destruct (sorted_row level_of lvl).
Qed.

Lemma positions_is_Some level_of node :
  is_Some (lychrel_tree_plot.positions level_of !! node)
  <-> is_Some (level_of !! node).
Proof.
  split.
  - intros [v (lvl & i & Hl & _)%positions_lookup]. eauto.
  - intros [lvl Hl].
    assert (node ∈ sorted_row level_of lvl) as [i Hi]%list_elem_of_lookup
      by (by apply elem_of_sorted_row).
    eexists. apply positions_lookup. eauto.
Qed.

End Layout.

Section LayoutOfGraph.

Lemma adjacency_levels max_iter seeds u targets :
  lychrel_tree.adjacency (graph_of max_iter seeds) !! u = Some targets ->
  is_Some (lychrel_tree.level_of (graph_of max_iter seeds) !! u) /\
  forall v, v ∈ targets ->
    is_Some (lychrel_tree.level_of (graph_of max_iter seeds) !! v).
Proof.
  intros Hu.
  assert (forall v, v ∈ targets ->
            is_Some (lychrel_tree.level_of (graph_of max_iter seeds) !! u) /\
            is_Some (lychrel_tree.level_of (graph_of max_iter seeds) !! v))
    as Hedge.
  { intros v Hv.
    destruct (edge_level max_iter seeds u v) as (lu & lv & -> & -> & _);
      [by exists targets|eauto]. }
  destruct (graph_of_keys max_iter seeds u) as (v & s & Hs & Hv);
    [by rewrite Hu|].
  rewrite Hu in Hs. injection Hs as <-.
  split; [by destruct (Hedge v Hv)|]. intros w Hw. by destruct (Hedge w Hw).
Qed.

End LayoutOfGraph.

(** X17. [plot_lychrel_graph] gives a position to exactly the nodes that
    have a level, and the [y] coordinate of a node is minus its level. *)
Theorem positions_cover_levels (level_of : gmap Z nat) (node : Z) :
  (is_Some (lychrel_tree_plot.positions level_of !! node)
   <-> is_Some (level_of !! node)) /\
  forall x y,
    lychrel_tree_plot.positions level_of !! node = Some (x, y) ->
    exists lvl : nat, level_of !! node = Some lvl /\ y = - Z.of_nat lvl.
Proof.
  split; [apply positions_is_Some|].
  intros x y (lvl & i & Hl & _ & [= _ ->])%positions_lookup. eauto.
Qed.

Lemma positions_cover_levels_witness :
  lychrel_tree_plot.positions {[5 := 0%nat; 10 := 1%nat]} !! 10
  = Some ((0 - 1 / 2)%Q, -1) /\
  exists lvl : nat,
    ({[5 := 0%nat; 10 := 1%nat]} : gmap Z nat) !! 10 = Some lvl /\
    -1 = - Z.of_nat lvl.
Proof.
  assert (lychrel_tree_plot.positions {[5 := 0%nat; 10 := 1%nat]} !! 10
          = Some ((0 - 1 / 2)%Q, -1)) as Hp by (vm_compute; reflexivity).
  split; [exact Hp|].
  apply (proj2 (positions_cover_levels {[5 := 0%nat; 10 := 1%nat]} 10)
           (0 - 1 / 2)%Q (-1) Hp).
Defined.

(** X18. Within a row the layout places the nodes by increasing value, at
    least one unit apart: if [u < v] have the same [y], then
    [x_u + 1 <= x_v].  Different rows differ in the integer [y], so no
    two nodes share a position. *)
Theorem positions_spread (level_of : gmap Z nat) (u v : Z) xu xv y :
  lychrel_tree_plot.positions level_of !! u = Some (xu, y) ->
  lychrel_tree_plot.positions level_of !! v = Some (xv, y) ->
  u < v ->
  (xu + 1 <= xv)%Q.
Proof.
  intros (lu & i & _ & Hi & [= -> ->])%positions_lookup.
  intros (lv & j & _ & Hj & [= -> Hy])%positions_lookup Huv.
  assert (lv = lu) as -> by lia.
  assert (i < j)%nat as Hij.
  { destruct (Nat.lt_trichotomy i j) as [?|[->|Hji]]; [done|..].
    - rewrite Hi in Hj. injection Hj as ->. lia.
    - pose proof (sorted_row_increasing _ _ _ _ _ _ Hj Hi Hji). lia. }
  assert (Z.of_nat i + 1 <= Z.of_nat j)%Z as Hle by lia.
  rewrite Zle_Qle, inject_Z_plus in Hle.
  change (inject_Z 1) with 1%Q in Hle.
  generalize dependent (inject_Z (Z.of_nat i)).
  generalize (inject_Z (Z.of_nat j)).
  generalize (inject_Z (Z.of_nat (length (sorted_row level_of lu)))).
  intros c b a Ha. lra.
Qed.

Lemma positions_spread_witness :
  lychrel_tree_plot.positions {[5 := 0%nat; 6 := 0%nat; 10 := 1%nat]} !! 5
  = Some ((0 - 2 / 2)%Q, -0) /\
  lychrel_tree_plot.positions {[5 := 0%nat; 6 := 0%nat; 10 := 1%nat]} !! 6
  = Some ((1 - 2 / 2)%Q, -0) /\
  5 < 6 /\
  ((0 - 2 / 2) + 1 <= 1 - 2 / 2)%Q.
Proof.
  assert (lychrel_tree_plot.positions
            {[5 := 0%nat; 6 := 0%nat; 10 := 1%nat]} !! 5
          = Some ((0 - 2 / 2)%Q, -0)) as H5 by (vm_compute; reflexivity).
  assert (lychrel_tree_plot.positions
            {[5 := 0%nat; 6 := 0%nat; 10 := 1%nat]} !! 6
          = Some ((1 - 2 / 2)%Q, -0)) as H6 by (vm_compute; reflexivity).
  assert (5 < 6) as Hlt by lia.
  split; [exact H5|]. split; [exact H6|]. split; [exact Hlt|].
  apply (positions_spread _ 5 6 _ _ _ H5 H6 Hlt).
Defined.

(** X19. On the output of [build_lychrel_graph] the edge loop of
    [plot_lychrel_graph] never fails on a missing position: every key of
    the adjacency and every target has one. *)
Theorem arrows_never_fail (start end_ bound : Z) g :
  lychrel_tree.build_lychrel_graph start end_ bound = Ok g ->
  is_Some (lychrel_tree_plot.arrows
             (lychrel_tree.adjacency g)
             (lychrel_tree_plot.positions (lychrel_tree.level_of g))).
Proof.
  intros [-> _]%build_ok_inv. unfold lychrel_tree_plot.arrows.
  assert (is_Some (mapM (lychrel_tree_plot.arrows_from
                           (lychrel_tree_plot.positions
                              (lychrel_tree.level_of
                                 (graph_of bound (range start (end_ + 1))))))
                        (map_to_list
                           (lychrel_tree.adjacency
                              (graph_of bound (range start (end_ + 1)))))))
    as [rows ->]; [|by eexists].
  apply mapM_is_Some, Forall_forall.
  intros [u targets] Hu%elem_of_map_to_list.
  destruct (adjacency_levels _ _ _ _ Hu) as [Hlu Hlv].
  apply positions_is_Some in Hlu as [pu Hpu].
  unfold compose, lychrel_tree_plot.arrows_from. rewrite Hpu.
  cbn [mbind option_bind].
  apply mapM_is_Some, Forall_forall. intros v Hv%elem_of_elements.
  apply Hlv, positions_is_Some in Hv as [pv Hpv].
  unfold compose. rewrite Hpv. by eexists.
Qed.

Lemma arrows_never_fail_witness :
  lychrel_tree.build_lychrel_graph 5 6 2 = Ok (graph_of 2 [5; 6]) /\
  is_Some (lychrel_tree_plot.arrows
             (lychrel_tree.adjacency (graph_of 2 [5; 6]))
             (lychrel_tree_plot.positions
                (lychrel_tree.level_of (graph_of 2 [5; 6])))).
Proof.
  assert (lychrel_tree.build_lychrel_graph 5 6 2 = Ok (graph_of 2 [5; 6]))
    as Hb by (vm_compute; reflexivity).
  split; [exact Hb|].
  apply (arrows_never_fail 5 6 2 (graph_of 2 [5; 6]) Hb).
Defined.

(** X20. Every flagged seed is drawn, red, in the top row: it has a
    position whose [y] coordinate is [0]. *)
Theorem flagged_seeds_top_row (start end_ bound : Z) g n :
  lychrel_tree.build_lychrel_graph start end_ bound = Ok g ->
  n ∈ lychrel_tree.lychrel_seeds g ->
  lychrel_tree_plot.color (lychrel_tree.lychrel_seeds g) n = "red"%string /\
  exists x,
    lychrel_tree_plot.positions (lychrel_tree.level_of g) !! n = Some (x, 0).
Proof.
  intros [-> _]%build_ok_inv Hn. split.
  { unfold lychrel_tree_plot.color. by rewrite decide_True. }
  apply graph_of_seeds in Hn as [Hn _].
  destruct (level_present bound (range start (end_ + 1)) n 0 n)
    as (m & Hm & Hle); [done..|].
  assert (m = 0%nat) as -> by lia.
  set (G := graph_of bound (range start (end_ + 1))) in *.
  assert (n ∈ sorted_row (lychrel_tree.level_of G) 0)
    as [i Hi]%list_elem_of_lookup by (by apply elem_of_sorted_row).
  eexists. apply positions_lookup. exists 0%nat, i. eauto.
Qed.

Lemma flagged_seeds_top_row_witness :
  lychrel_tree.build_lychrel_graph 195 197 5 = Ok (graph_of 5 [195; 196; 197])
  /\
  196 ∈ lychrel_tree.lychrel_seeds (graph_of 5 [195; 196; 197]) /\
  lychrel_tree_plot.color
    (lychrel_tree.lychrel_seeds (graph_of 5 [195; 196; 197])) 196
  = "red"%string /\
  exists x,
    lychrel_tree_plot.positions
      (lychrel_tree.level_of (graph_of 5 [195; 196; 197])) !! 196
    = Some (x, 0).
Proof.
  assert (lychrel_tree.build_lychrel_graph 195 197 5
          = Ok (graph_of 5 [195; 196; 197])) as Hb
    by (vm_compute; reflexivity).
  assert (196 ∈ lychrel_tree.lychrel_seeds (graph_of 5 [195; 196; 197]))
    as Hn.
  { apply graph_of_seeds. split; [|vm_compute; reflexivity].
    apply list_elem_of_further, list_elem_of_here. }
  split; [exact Hb|]. split; [exact Hn|].
  apply (flagged_seeds_top_row 195 197 5 (graph_of 5 [195; 196; 197]) 196
           Hb Hn).
Defined.

(** ** Chains and primitives below the conversion limit *)

(** X21. For every [seed >= 0] and [bound >= 1] the step counter
    [palindrome_iterations] returns a count between [1] and [bound], and
    [lychrel_chain] returns a chain or raises [ValueError]; it returns
    when [seed < 10 ^ (4300 - bound)], no value of the chain reaching
    4301 digits then.  A returned chain has a length between [2] and
    [bound + 1], starts with the seed, and each of its elements is
    followed by its sum with its reversal.  When success is reported, at
    the last index [k] of the chain, then [k >= 1], [chain[k]] is a
    palindrome, no [chain[j]] with [1 <= j < k] is one, and
    [palindrome_iterations] returns this [k]; the seed itself is never
    tested, so the step counter is never [0].  When no palindrome is
    reported, the chain has [bound + 1] elements, none of them after the
    seed is a palindrome, and [palindrome_iterations] returns [bound]. *)
Theorem chain_generator (seed bound : Z) :
  0 <= seed -> 1 <= bound ->
  1 <= lychrel_graph.palindrome_iterations seed bound <= bound /\
  (seed < 10 ^ (4300 - bound) ->
   exists chain found,
     lychrel_tree.lychrel_chain seed bound = Ok (chain, found)) /\
  ((exists chain found,
      lychrel_tree.lychrel_chain seed bound = Ok (chain, found))
   \/ lychrel_tree.lychrel_chain seed bound = Raise ValueError) /\
  forall chain found,
    lychrel_tree.lychrel_chain seed bound = Ok (chain, found) ->
    2 <= Z.of_nat (length chain) <= bound + 1 /\
    chain !! 0%nat = Some seed /\
    (forall (i : nat) x y,
       chain !! i = Some x -> chain !! S i = Some y ->
       y = x + lychrel_graph.reverse_int x) /\
    (found = true ->
     let k := (length chain - 1)%nat in
     (1 <= k)%nat /\
     lychrel_graph.palindrome_iterations seed bound = Z.of_nat k /\
     (exists x, chain !! k = Some x /\
                lychrel_tree.is_palindrome x = Ok true /\
                lychrel_graph.is_palindrome x = true) /\
     (forall j x, (1 <= j < k)%nat -> chain !! j = Some x ->
                  lychrel_tree.is_palindrome x = Ok false /\
                  lychrel_graph.is_palindrome x = false)) /\
    (found = false ->
     Z.of_nat (length chain) = bound + 1 /\
     lychrel_graph.palindrome_iterations seed bound = bound /\
     (forall j x, (1 <= j)%nat -> chain !! j = Some x ->
                  lychrel_tree.is_palindrome x = Ok false /\
                  lychrel_graph.is_palindrome x = false)).
Proof.
  intros Hseed Hbound.
  set (k := Z.to_nat bound).
  destruct (extend_length k seed) as [Hle Hge]. specialize (Hge ltac:(lia)).
  split; [by apply palindrome_iterations_range|].
  split.
  { intros Hlt. eexists _, _. by apply runs_true, runs_short_seed. }
  split.
  { destruct (lychrel_chain_cases seed bound) as [[_ Hok]|[_ Hr]];
      [left; eauto|by right]. }
  intros chain found (-> & -> & Hr)%lychrel_chain_ok_inv.
  assert (forall (j : nat) x, chain_of seed bound !! j = Some x ->
            lychrel_tree.is_palindrome x
            = Ok (lychrel_graph.is_palindrome x)) as Htree.
  { intros j x Hx. apply tree_is_palindrome_small.
    destruct (runs_small bound seed x Hr Hbound) as [? ?];
      [by eapply list_elem_of_lookup_2|].
    rewrite Z.abs_eq; lia. }
  rewrite palindrome_iterations_chain.
  revert Htree. unfold chain_of, found_of. fold k. intros Htree.
  simpl length.
  split; [lia|]. split; [done|].
  split; [intros i x y Hx Hy; apply (extend_step k seed i x y Hx Hy)|].
  replace (S (length (extend k seed).1) - 1)%nat
    with (length (extend k seed).1) by lia.
  split.
  - intros Hf. rewrite Hf. split; [lia|]. split; [lia|]. split.
    + destruct (extend_found k seed Hf) as (a & Hlast & Ha). exists a.
      rewrite last_lookup in Hlast.
      assert ((seed :: (extend k seed).1) !! length (extend k seed).1
              = Some a) as Hlk.
      { destruct (length (extend k seed).1) as [|m] eqn:Hm; [lia|].
        by simpl in *. }
      split; [done|]. split; [|done]. by rewrite (Htree _ _ Hlk), Ha.
    + intros [|j] x Hj Hx; [lia|].
      assert (lychrel_graph.is_palindrome x = false) as Hp.
      { simpl in Hx. apply (extend_interior k seed j); [done|lia]. }
      split; [|done]. by rewrite (Htree _ _ Hx), Hp.
  - intros Hf. rewrite Hf. destruct (extend_exhausted k seed Hf) as [Hlen Hall].
    split; [lia|]. split; [done|].
    intros [|j] x Hj Hx; [lia|].
    assert (lychrel_graph.is_palindrome x = false) as Hp.
    { simpl in Hx. rewrite Forall_forall in Hall. apply Hall.
      by eapply list_elem_of_lookup_2. }
    split; [|done]. by rewrite (Htree _ _ Hx), Hp.
Qed.

Lemma chain_generator_witness :
  0 <= 5 /\ 1 <= 3 /\
  lychrel_tree.lychrel_chain 5 3 = Ok ([5; 10; 11], true) /\
  lychrel_graph.palindrome_iterations 5 3 = 2 /\
  lychrel_tree.is_palindrome 11 = Ok true /\
  lychrel_tree.is_palindrome 10 = Ok false.
Proof.
  split; [lia|]. split; [lia|].
  assert (lychrel_tree.lychrel_chain 5 3 = Ok ([5; 10; 11], true)) as Hc
    by (vm_compute; reflexivity).
  destruct (chain_generator 5 3 ltac:(lia) ltac:(lia)) as (_ & _ & _ & Hall).
  destruct (Hall _ _ Hc) as (_ & _ & _ & Hfound & _).
  destruct (Hfound eq_refl) as (_ & Hk & (x & Hx & Hpx & _) & Hbefore).
  split; [exact Hc|]. split; [exact Hk|].
  injection Hx as <-. split; [exact Hpx|].
  apply (Hbefore 1%nat 10); [simpl; lia|reflexivity].
Defined.

(** X22. For every [n >= 0] the arithmetic [is_palindrome] is true
    exactly when the reversal of [n] is [n], and the [while] loop of the
    reversal is left through its own condition.  Below [10 ^ 4300] the
    string primitives compute the same functions: [reverse_num n]
    returns [reverse_int n] and the two [is_palindrome] agree.  From
    [10 ^ 4300] on both string primitives raise [ValueError]. *)
Theorem primitives_agree (n : Z) :
  0 <= n ->
  lychrel_graph.is_palindrome n = (lychrel_graph.reverse_int n =? n) /\
  fst (lychrel_graph.reverse_int_loop (digit_fuel n) n 0) <= 0 /\
  (n < 10 ^ 4300 ->
   lychrel_tree.reverse_num n = Ok (lychrel_graph.reverse_int n) /\
   lychrel_tree.is_palindrome n = Ok (lychrel_graph.is_palindrome n) /\
   (forall r, lychrel_tree.reverse_num n = Ok r ->
              lychrel_tree.is_palindrome n = Ok (r =? n))) /\
  (10 ^ 4300 <= n ->
   lychrel_tree.reverse_num n = Raise ValueError /\
   lychrel_tree.is_palindrome n = Raise ValueError).
Proof.
  intros Hn. change (10 ^ 4300) with str_limit.
  assert (lychrel_graph.is_palindrome n = (lychrel_graph.reverse_int n =? n))
    as Hpal.
  { rewrite graph_is_palindrome_eq. destruct (Z.ltb_spec n 0); [lia|done]. }
  split; [done|]. split; [apply reverse_int_exits|]. split.
  - intros Hlt. split; [by apply reverse_num_small|].
    assert (lychrel_tree.is_palindrome n
            = Ok (lychrel_graph.is_palindrome n)) as Htree
      by (apply tree_is_palindrome_small; rewrite Z.abs_eq; lia).
    split; [done|].
    intros r Hr. rewrite reverse_num_small in Hr by done.
    injection Hr as <-. by rewrite Htree, Hpal.
  - intros Hge. split; [by apply reverse_num_large|].
    apply tree_is_palindrome_large. rewrite Z.abs_eq; lia.
Qed.

Lemma primitives_agree_witness :
  0 <= 120 /\
  lychrel_tree.reverse_num 120 = Ok 21 /\
  lychrel_tree.is_palindrome 120 = Ok false /\
  lychrel_graph.is_palindrome 120 = (lychrel_graph.reverse_int 120 =? 120).
Proof.
  split; [lia|].
  destruct (primitives_agree 120 ltac:(lia)) as (Hpal & _ & Hsmall & _).
  destruct (Hsmall ltac:(done)) as (Hrev & Htree & _).
  split; [exact Hrev|]. split; [exact Htree|exact Hpal].
Defined.
